(** * Astro Blacksmith beat store: a shallow embedding of [server.py]

    The development follows the source file top-down: the Python string
    and [os.path] primitives the server calls, the SQLite store behind
    [BeatsDatabase], the folder synchroniser, and the request handlers
    of [BeatStoreHandler].

    Modelling conventions.
    - A Python [str] is a [string]; the model covers ASCII text:
      [str.lower] only moves the letters [A]..[Z] and [int] reads ASCII
      digits.  Statements that depend on either say so with [is_ascii].
    - [os.path] is [posixpath] (separator [/], no alternative separator).
    - Row identities and timestamps are integers ([Z]).  An insert
      reads [CURRENT_TIMESTAMP] for itself: a single insert takes its
      time [now], a sync pass takes a clock with one reading per file.
      The id counters are taken to stay below [2 ^ 63], where SQLite
      would refuse the insert.
    - The database file can always be opened; a value is stored as it
      was bound (column affinity is left out).
    - A raised exception is the left injection of a sum; the store state
      is passed explicitly, and a connection carries both the committed
      file and the view of its open transaction. *)

From Stdlib Require Import ZArith List String Ascii Bool Lia Permutation.
From Stdlib Require Import DecimalString Sorted.
Import ListNotations.
Open Scope string_scope.
Open Scope Z_scope.

(** ** Python strings *)

Module PyStr.

Definition is_upper (c : ascii) : bool :=
  (65 <=? nat_of_ascii c)%nat && (nat_of_ascii c <=? 90)%nat.

Definition lower_char (c : ascii) : ascii :=
  if is_upper c then ascii_of_nat (nat_of_ascii c + 32) else c.

Fixpoint map_chars (f : ascii -> ascii) (s : string) : string :=
  match s with
  | EmptyString => EmptyString
  | String c r => String (f c) (map_chars f r)
  end.

(** [s.lower()] *)
Definition lower (s : string) : string := map_chars lower_char s.

(** [s.replace(old, new)] for one-character [old] and [new]. *)
Definition replace_char (old new : ascii) (s : string) : string :=
  map_chars (fun c => if Ascii.eqb c old then new else c) s.

(** [s.startswith(p)] *)
Fixpoint startswith (p s : string) : bool :=
  match p, s with
  | EmptyString, _ => true
  | String _ _, EmptyString => false
  | String a p', String b s' => Ascii.eqb a b && startswith p' s'
  end.

(** [s[i:]] for [0 <= i] *)
Fixpoint drop (i : nat) (s : string) : string :=
  match i, s with
  | O, _ => s
  | S _, EmptyString => EmptyString
  | S j, String _ r => drop j r
  end.

(** [s[:i]] for [0 <= i] *)
Fixpoint take (i : nat) (s : string) : string :=
  match i, s with
  | O, _ => EmptyString
  | S _, EmptyString => EmptyString
  | S j, String c r => String c (take j r)
  end.

(** [s.endswith(x)] *)
Definition endswith (x s : string) : bool :=
  (String.length x <=? String.length s)%nat
  && String.eqb (drop (String.length s - String.length x) s) x.

(** [s.endswith(xs)] for a tuple [xs] *)
Definition endswith_any (xs : list string) (s : string) : bool :=
  existsb (fun x => endswith x s) xs.

(** [s.rfind(c)] for a one-character [c]: the highest index, or [-1]. *)
Fixpoint rfind (c : ascii) (s : string) : Z :=
  match s with
  | EmptyString => -1
  | String a r =>
      let k := rfind c r in
      if 0 <=? k then k + 1 else if Ascii.eqb a c then 0 else -1
  end.

(** [x in s] for strings: substring test. *)
Fixpoint contains (x s : string) : bool :=
  startswith x s
  || match s with
     | EmptyString => false
     | String _ r => contains x r
     end.

(** [s.split(sep)] for a one-character separator. *)
Fixpoint split (sep : ascii) (s : string) : list string :=
  match s with
  | EmptyString => [EmptyString]
  | String c r =>
      if Ascii.eqb c sep then EmptyString :: split sep r
      else match split sep r with
           | h :: t => String c h :: t
           | [] => [String c EmptyString]
           end
  end.

(** [sep.join(parts)] *)
Fixpoint join (sep : string) (parts : list string) : string :=
  match parts with
  | [] => EmptyString
  | [p] => p
  | p :: rest => p ++ sep ++ join sep rest
  end.

(** The white space [int()] skips around an ASCII literal (C's
    [isspace]): tab, line feed, vertical tab, form feed, carriage return
    and space.  The separators 0x1c to 0x1f are not among them. *)
Definition is_space (c : ascii) : bool :=
  let n := nat_of_ascii c in
  ((9 <=? n)%nat && (n <=? 13)%nat) || (n =? 32)%nat.

Fixpoint lstrip (s : string) : string :=
  match s with
  | String c r => if is_space c then lstrip r else s
  | EmptyString => EmptyString
  end.

Fixpoint rstrip (s : string) : string :=
  match s with
  | EmptyString => EmptyString
  | String c r =>
      match rstrip r with
      | EmptyString => if is_space c then EmptyString else String c EmptyString
      | r' => String c r'
      end
  end.

(** [s] without the white space [int()] skips at both ends. *)
Definition strip (s : string) : string := rstrip (lstrip s).

(** Every character of [s] is an ASCII character. *)
Fixpoint is_ascii (s : string) : bool :=
  match s with
  | EmptyString => true
  | String c r => (nat_of_ascii c <? 128)%nat && is_ascii r
  end.

Definition is_digit (c : ascii) : bool :=
  (48 <=? nat_of_ascii c)%nat && (nat_of_ascii c <=? 57)%nat.

Definition digit_value (c : ascii) : Z := Z.of_nat (nat_of_ascii c) - 48.

(** The digit part of an integer literal: decimal digits, with single
    underscores allowed between two digits.  [prev_digit] says whether the
    character before was a digit; [acc] is the value read so far. *)
Fixpoint parse_digits (prev_digit : bool) (acc : Z) (s : string) : option Z :=
  match s with
  | EmptyString => if prev_digit then Some acc else None
  | String c r =>
      if is_digit c then parse_digits true (10 * acc + digit_value c) r
      else if Ascii.eqb c "_" && prev_digit
           then match r with
                | String d _ => if is_digit d then parse_digits false acc r else None
                | EmptyString => None
                end
           else None
  end.

(** The number of digits of a literal, underscores apart. *)
Fixpoint count_digits (s : string) : Z :=
  match s with
  | EmptyString => 0
  | String c r => (if is_digit c then 1 else 0) + count_digits r
  end.

(** The limit [int()] puts on the digits of a decimal literal
    ([sys.int_info.default_max_str_digits]). *)
Definition max_str_digits : Z := 4300.

(** The unsigned part of a literal: refused when it has more digits
    than the limit, leading zeros counted. *)
Definition parse_literal (s : string) : option Z :=
  if max_str_digits <? count_digits s then None
  else parse_digits false 0 s.

(** [int(s)]: [None] stands for [ValueError]. *)
Definition py_int (s : string) : option Z :=
  match strip s with
  | String "-" r => option_map Z.opp (parse_literal r)
  | String "+" r => parse_literal r
  | t => parse_literal t
  end.

(** [s.replace(old, new)] for a non-empty [old]: every occurrence, left
    to right, without overlap.  [skip] counts the characters of a
    matched occurrence still to pass over. *)
Fixpoint replace_from (old new : string) (skip : nat) (s : string) : string :=
  match s with
  | EmptyString => EmptyString
  | String c r =>
      match skip with
      | S k => replace_from old new k r
      | O =>
          if startswith old s
          then new ++ replace_from old new (String.length old - 1) r
          else String c (replace_from old new 0 r)
      end
  end.

Definition replace (old new s : string) : string := replace_from old new 0 s.

End PyStr.

(** ** [urllib.parse] *)

Module Urllib.

Definition hex_value (c : ascii) : option nat :=
  let n := nat_of_ascii c in
  if (48 <=? n)%nat && (n <=? 57)%nat then Some (n - 48)%nat
  else if (65 <=? n)%nat && (n <=? 70)%nat then Some (n - 55)%nat
  else if (97 <=? n)%nat && (n <=? 102)%nat then Some (n - 87)%nat
  else None.

(** [unquote(s)]: each [%XX] with two hexadecimal digits becomes the
    character of that code; a [%] not followed by two such digits stays.
    (Codes above 127 stand for themselves here; Python decodes them as
    UTF-8.) *)
Fixpoint unquote (s : string) : string :=
  match s with
  | EmptyString => EmptyString
  | String c t =>
      if Ascii.eqb c "%" then
        match t with
        | String a (String b r) =>
            match hex_value a, hex_value b with
            | Some x, Some y => String (ascii_of_nat (16 * x + y)) (unquote r)
            | _, _ => String c (unquote t)
            end
        | _ => String c (unquote t)
        end
      else String c (unquote t)
  end.

End Urllib.

(** ** [os.path] (posixpath) *)

Module PosixPath.
Import PyStr.

Definition isabs (p : string) : bool := startswith "/" p.

(** [os.path.join(a, b)] *)
Definition join (a b : string) : string :=
  if startswith "/" b then b
  else if String.eqb a "" || endswith "/" a then a ++ b
  else a ++ "/" ++ b.

Definition is_nil {A} (l : list A) : bool :=
  match l with [] => true | _ => false end.

(** One iteration of the component loop of [normpath]. *)
Definition normpath_step (initial_slashes : nat) (new_comps : list string)
  (comp : string) : list string :=
  if String.eqb comp "" || String.eqb comp "." then new_comps
  else if negb (String.eqb comp "..")
          || ((initial_slashes =? 0)%nat && is_nil new_comps)
          || (negb (is_nil new_comps) && String.eqb (last new_comps "") "..")
       then (new_comps ++ [comp])%list
       else removelast new_comps.

Definition repeat_slash (n : nat) : string :=
  match n with O => "" | 1%nat => "/" | _ => "//" end.

(** [os.path.normpath(path)] *)
Definition normpath (path : string) : string :=
  if String.eqb path "" then "."
  else
    let initial_slashes :=
      if startswith "/" path then
        if startswith "//" path && negb (startswith "///" path) then 2%nat
        else 1%nat
      else 0%nat in
    let comps := fold_left (normpath_step initial_slashes) (split "/" path) [] in
    let joined := PyStr.join "/" comps in
    let path' := (repeat_slash initial_slashes ++ joined)%string in
    if String.eqb path' "" then "." else path'.

(** [os.path.abspath(path)], with the working directory as an argument. *)
Definition abspath (cwd path : string) : string :=
  normpath (if isabs path then path else join cwd path).

(** The [while] loop of [splitext] that skips leading dots: it runs to
    its end exactly when every character it visits is a dot. *)
Fixpoint only_dots (s : string) : bool :=
  match s with
  | EmptyString => true
  | String c r => Ascii.eqb c "." && only_dots r
  end.

(** [os.path.splitext(p)]: the extension starts at the last dot of the
    last component, unless only dots precede it there. *)
Definition splitext (p : string) : string * string :=
  let sepIndex := rfind "/" p in
  let dotIndex := rfind "." p in
  if sepIndex <? dotIndex then
    if only_dots (drop (Z.to_nat (sepIndex + 1)) (take (Z.to_nat dotIndex) p))
    then (p, "")
    else (take (Z.to_nat dotIndex) p, drop (Z.to_nat dotIndex) p)
  else (p, "").

End PosixPath.

(** ** Values exchanged with the outside: JSON and SQL *)

Module Values.

(** A Python [float] as [json.loads] yields it: only whether it is a NaN
    matters to the store, the rest is kept as the literal. *)
Inductive py_float :=
| NaN
| Float (repr : string).

#[local] Set Warnings "-register-all".

(** The result of [json.loads].  A [JObject] lists the items of the
    Python [dict]: its keys are distinct. *)
Inductive json_value :=
| JNull
| JBool (b : bool)
| JInt (n : Z)
| JFloat (f : py_float)
| JString (s : string)
| JArray (items : list json_value)
| JObject (items : list (string * json_value)).

Inductive sql_value :=
| SqlNull
| SqlInteger (n : Z)
| SqlReal (repr : string)
| SqlText (s : string).

Inductive constraint :=
| NotNull (column : string)
| Unique (column : string).

(** The exception classes the server can meet. *)
Inductive exn :=
| IntegrityError (c : constraint)
| OverflowError
| InterfaceError
| ValueError
| TypeError
| KeyError
| OSError
| JSONDecodeError.

Definition is_string (v : json_value) (s : string) : bool :=
  match v with
  | JString t => String.eqb t s
  | _ => false
  end.

(** [x in container] for a string [x]. *)
Definition py_in (x : string) (container : json_value) : exn + bool :=
  match container with
  | JObject items => inr (existsb (fun kv => String.eqb (fst kv) x) items)
  | JArray items => inr (existsb (fun v => is_string v x) items)
  | JString s => inr (PyStr.contains x s)
  | _ => inl TypeError
  end.

(** [container[key]] for a string [key]. *)
Definition getitem (container : json_value) (key : string) : exn + json_value :=
  match container with
  | JObject items =>
      match find (fun kv => String.eqb (fst kv) key) items with
      | Some kv => inr (snd kv)
      | None => inl KeyError
      end
  | _ => inl TypeError
  end.

Definition int64_min : Z := - 2 ^ 63.
Definition int64_max : Z := 2 ^ 63 - 1.

Definition fits_int64 (n : Z) : bool := (int64_min <=? n) && (n <=? int64_max).

(** How [sqlite3] binds a Python value to a [?] placeholder. *)
Definition bind_param (v : json_value) : exn + sql_value :=
  match v with
  | JNull => inr SqlNull
  | JBool b => inr (SqlInteger (if b then 1 else 0))
  | JInt n => if fits_int64 n then inr (SqlInteger n) else inl OverflowError
  | JFloat NaN => inr SqlNull
  | JFloat (Float r) => inr (SqlReal r)
  | JString s => inr (SqlText s)
  | JArray _ => inl InterfaceError
  | JObject _ => inl InterfaceError
  end.

End Values.

(** ** The SQLite store *)

Module Sqlite.
Import Values.

(** A row of table [beats]. *)
Record Beat := mkBeat {
  beat_id : Z;
  beat_title : string;
  beat_slug : string;
  beat_description : option string;
  beat_genre : option string;
  beat_bpm : option Z;
  beat_duration : option Z;
  beat_file_name : string;
  beat_file_type : string;
  beat_created_at : Z
}.

(** A row of table [exclusive_inquiries]. *)
Record Inquiry := mkInquiry {
  inq_id : Z;
  inq_beat_id : sql_value;
  inq_name : sql_value;
  inq_email : sql_value;
  inq_offer : sql_value;
  inq_status : string;
  inq_created_at : Z
}.

(** The database file: both tables in row order, and for each the
    [AUTOINCREMENT] counter SQLite keeps in [sqlite_sequence]. *)
Record database := mkDatabase {
  beats : list Beat;
  beats_seq : Z;
  exclusive_inquiries : list Inquiry;
  inquiries_seq : Z
}.

Definition empty_database : database := mkDatabase [] 0 [] 0.

(** An open connection: what the file holds, and what the connection
    sees, which includes the writes of its open transaction. *)
Record connection := mkConnection {
  committed : database;
  pending : database
}.

(** [sqlite3.connect(db_path)] *)
Definition connect (db : database) : connection := mkConnection db db.

(** A computation on a connection that may raise. *)
Definition Txn (A : Type) : Type := connection -> connection * (exn + A).

Definition ret {A} (a : A) : Txn A := fun conn => (conn, inr a).

Definition raise {A} (e : exn) : Txn A := fun conn => (conn, inl e).

Definition bind {A B} (m : Txn A) (k : A -> Txn B) : Txn B :=
  fun conn =>
    match m conn with
    | (conn', inr a) => k a conn'
    | (conn', inl e) => (conn', inl e)
    end.

Declare Scope txn_scope.
Delimit Scope txn_scope with txn.
Notation "x <- m ;; k" := (bind m (fun x => k))
  (at level 100, m at next level, right associativity) : txn_scope.
Notation "m ;;; k" := (bind m (fun _ => k))
  (at level 100, right associativity) : txn_scope.

(** [conn.commit()] *)
Definition commit : Txn unit :=
  fun conn => (mkConnection (pending conn) (pending conn), inr tt).

(** [conn.rollback()] *)
Definition rollback : Txn unit :=
  fun conn => (mkConnection (committed conn) (committed conn), inr tt).

(** [with sqlite3.connect(db_path) as conn: body]: the block commits when
    the body returns and rolls back when it raises; the exception goes on
    to the caller.  The result is the file after the block. *)
Definition with_connection {A} (body : Txn A) (db : database)
  : database * (exn + A) :=
  match body (connect db) with
  | (conn, inr a) => (committed (fst (commit conn)), inr a)
  | (conn, inl e) => (committed (fst (rollback conn)), inl e)
  end.

(** The next [AUTOINCREMENT] row id: one more than the largest of the
    ids in the table and the counter. *)
Definition next_rowid (ids : list Z) (seq : Z) : Z :=
  Z.max (fold_right Z.max 0 ids) seq + 1.

Definition slug_taken (s : string) (rows : list Beat) : bool :=
  existsb (fun b => String.eqb (beat_slug b) s) rows.

(** An optional Python [int] binds to a [?]: [None] binds as [NULL], an
    [int] binds when it fits 64 bits. *)
Definition binds_int (v : option Z) : bool :=
  match v with
  | Some n => fits_int64 n
  | None => true
  end.

(** [INSERT INTO beats (title, slug, description, genre, bpm, duration,
    file_name, file_type) VALUES (?, ...)] under the schema of [init_db]:
    [title], [slug], [file_name], [file_type] are [NOT NULL], [slug] is
    [UNIQUE], [id] is [AUTOINCREMENT], [created_at] defaults to the
    current time.  The parameters are bound first: an integer outside 64
    bits raises [OverflowError] before any constraint is looked at.
    Returns [cursor.lastrowid]. *)
Definition insert_beat (now : Z)
  (title slug description genre : option string) (bpm duration : option Z)
  (file_name file_type : option string) : Txn Z :=
  fun conn =>
    let db := pending conn in
    if negb (binds_int bpm && binds_int duration)
    then (conn, inl OverflowError)
    else
    match title, slug, file_name, file_type with
    | None, _, _, _ => (conn, inl (IntegrityError (NotNull "beats.title")))
    | Some _, None, _, _ => (conn, inl (IntegrityError (NotNull "beats.slug")))
    | Some _, Some _, None, _ =>
        (conn, inl (IntegrityError (NotNull "beats.file_name")))
    | Some _, Some _, Some _, None =>
        (conn, inl (IntegrityError (NotNull "beats.file_type")))
    | Some t, Some s, Some fn, Some ft =>
        if slug_taken s (beats db)
        then (conn, inl (IntegrityError (Unique "beats.slug")))
        else
          let rowid := next_rowid (map beat_id (beats db)) (beats_seq db) in
          let row := mkBeat rowid t s description genre bpm duration fn ft now in
          (mkConnection (committed conn)
             (mkDatabase (beats db ++ [row]) rowid
                (exclusive_inquiries db) (inquiries_seq db)),
           inr rowid)
    end.

(** [SELECT id FROM beats WHERE file_name = ?] then [fetchone()] *)
Definition select_id_by_file_name (file_name : string) : Txn (option Z) :=
  fun conn =>
    (conn,
     inr (option_map beat_id
            (find (fun b => String.eqb (beat_file_name b) file_name)
               (beats (pending conn))))).

(** [SELECT * FROM beats WHERE id = ?] then [fetchone()] *)
Definition select_beat_by_id (beat_id' : Z) : Txn (option Beat) :=
  fun conn =>
    if fits_int64 beat_id'
    then (conn, inr (find (fun b => beat_id b =? beat_id') (beats (pending conn))))
    else (conn, inl OverflowError).

(** [ORDER BY created_at DESC]: rows with equal time keep table order. *)
Fixpoint insert_desc (b : Beat) (sorted : list Beat) : list Beat :=
  match sorted with
  | [] => [b]
  | x :: rest =>
      if beat_created_at x <=? beat_created_at b then b :: sorted
      else x :: insert_desc b rest
  end.

Definition order_by_created_at_desc (rows : list Beat) : list Beat :=
  fold_right insert_desc [] rows.

(** [SELECT * FROM beats ORDER BY created_at DESC] then [fetchall()] *)
Definition select_all_beats : Txn (list Beat) :=
  fun conn => (conn, inr (order_by_created_at_desc (beats (pending conn)))).

Definition not_null (column : string) (v : sql_value) : exn + sql_value :=
  match v with
  | SqlNull => inl (IntegrityError (NotNull column))
  | _ => inr v
  end.

(** [INSERT INTO exclusive_inquiries (beat_id, name, email, offer)
    VALUES (?, ?, ?, ?)]: the four parameters are bound first, then the
    [NOT NULL] columns are checked; [status] defaults to ['new']. *)
Definition insert_inquiry (now : Z) (beat_id' name email offer : json_value)
  : Txn Z :=
  fun conn =>
    let db := pending conn in
    let checked :=
      match bind_param beat_id', bind_param name, bind_param email,
            bind_param offer with
      | inl e, _, _, _ => inl e
      | _, inl e, _, _ => inl e
      | _, _, inl e, _ => inl e
      | _, _, _, inl e => inl e
      | inr b, inr n, inr e, inr o =>
          match not_null "exclusive_inquiries.beat_id" b,
                not_null "exclusive_inquiries.name" n,
                not_null "exclusive_inquiries.email" e,
                not_null "exclusive_inquiries.offer" o with
          | inl x, _, _, _ => inl x
          | _, inl x, _, _ => inl x
          | _, _, inl x, _ => inl x
          | _, _, _, inl x => inl x
          | inr b', inr n', inr e', inr o' => inr (b', n', e', o')
          end
      end in
    match checked with
    | inl x => (conn, inl x)
    | inr (b, n, e, o) =>
        let rowid :=
          next_rowid (map inq_id (exclusive_inquiries db)) (inquiries_seq db) in
        let row := mkInquiry rowid b n e o "new" now in
        (mkConnection (committed conn)
           (mkDatabase (beats db) (beats_seq db)
              (exclusive_inquiries db ++ [row]) rowid),
         inr rowid)
    end.

End Sqlite.

(** ** [class BeatsDatabase] *)

Module BeatsDatabase.
Import PyStr PosixPath Values Sqlite.
Local Open Scope txn_scope.

(** What [os.path.exists(BEATS_FOLDER)] and [os.listdir(BEATS_FOLDER)]
    find: no such path, a path that cannot be listed, or the entries. *)
Inductive folder_state :=
| FolderMissing
| FolderUnreadable
| FolderListing (entries : list string).

Definition folder_exists (folder : folder_state) : bool :=
  match folder with
  | FolderMissing => false
  | _ => true
  end.

Definition listdir (folder : folder_state) : exn + list string :=
  match folder with
  | FolderListing entries => inr entries
  | _ => inl OSError
  end.

Definition audio_extensions : list string :=
  [".mp3"; ".wav"; ".m4a"; ".flac"; ".ogg"].

(** The filter of the list comprehension:
    [f.lower().endswith(audio_extensions)] *)
Definition is_audio_file (f : string) : bool :=
  endswith_any audio_extensions (lower f).

(** The metadata taken from a file name. *)
Definition title_of (file_name : string) : string :=
  fst (splitext file_name).

Definition file_type_of (file_name : string) : string :=
  lower (drop 1 (snd (splitext file_name))).

Definition slug_of (file_name : string) : string :=
  replace_char "_" "-" (replace_char " " "-" (lower (title_of file_name))).

(** The clock of one pass: [clock i] is what [CURRENT_TIMESTAMP] gives
    while the loop handles its [i]-th file.  Each [INSERT] reads the
    time for itself, so the rows of one pass need not carry one time. *)
Definition clock := nat -> Z.

(** The clock as the rest of the loop sees it, one file later. *)
Definition later (c : clock) : clock := fun i => c (S i).

(** A clock that does not move during the pass. *)
Definition steady (t : Z) : clock := fun _ => t.

(** The body of [for file_name in files]. *)
Fixpoint sync_loop (c : clock) (files : list string) : Txn unit :=
  match files with
  | [] => ret tt
  | file_name :: rest =>
      found <- select_id_by_file_name file_name ;;
      match found with
      | Some _ => sync_loop (later c) rest
      | None =>
          let title := title_of file_name in
          let file_type := file_type_of file_name in
          let slug := slug_of file_name in
          let duration := @None Z in
          (insert_beat (c 0%nat) (Some title) (Some slug) None None None
             duration (Some file_name) (Some file_type)) ;;;
          sync_loop (later c) rest
      end
  end.

(** The body of the [with] block: the loop, [conn.commit()], and the
    count that is printed. *)
Definition sync_transaction (c : clock) (files : list string) : Txn nat :=
  sync_loop c files ;;; commit ;;; ret (List.length files).

(** The body of the [try] block. *)
Definition sync_try (c : clock) (folder : folder_state) (db : database)
  : database * (exn + nat) :=
  match listdir folder with
  | inl e => (db, inl e)
  | inr entries =>
      let files := filter is_audio_file entries in
      with_connection (sync_transaction c files) db
  end.

(** The line [sync_beats_from_folder] prints. *)
Inductive sync_log :=
| FolderNotFound
| Synced (count : nat)
| ErrorSyncing (e : exn).

(** [sync_beats_from_folder]: it returns nothing and never raises; the
    result is the database after the call and the line printed. *)
Definition sync_beats_from_folder (c : clock) (folder : folder_state)
  (db : database) : database * sync_log :=
  if negb (folder_exists folder) then (db, FolderNotFound)
  else
    match sync_try c folder db with
    | (db', inr n) => (db', Synced n)
    | (db', inl e) => (db', ErrorSyncing e)
    end.

(** [get_all_beats] *)
Definition get_all_beats (c : clock) (folder : folder_state) (db : database)
  : database * (exn + list Beat) :=
  let (db', _) := sync_beats_from_folder c folder db in
  with_connection select_all_beats db'.

(** [get_beat_by_id] *)
Definition get_beat_by_id (beat_id' : Z) (db : database)
  : database * (exn + option Beat) :=
  with_connection (select_beat_by_id beat_id') db.

(** [add_beat] *)
Definition add_beat (now : Z)
  (title slug description genre : option string) (bpm duration : option Z)
  (file_name file_type : option string) (db : database)
  : database * (exn + Z) :=
  with_connection
    (lastrowid <- insert_beat now title slug description genre bpm duration
                    file_name file_type ;;
     commit ;;;
     ret lastrowid)
    db.

(** [save_inquiry] *)
Definition save_inquiry (now : Z) (beat_id' name email offer : json_value)
  (db : database) : database * (exn + Z) :=
  with_connection
    (lastrowid <- insert_inquiry now beat_id' name email offer ;;
     commit ;;;
     ret lastrowid)
    db.

End BeatsDatabase.

(** ** [class BeatStoreHandler] *)

Module BeatStoreHandler.
Import PyStr PosixPath Values Sqlite BeatsDatabase.

Inductive body :=
| JsonBody (v : json_value)
| RawBody (bytes : string).

(** What a handler sends, call by call. *)
Inductive output :=
| send_response (code : Z)
| send_header (name value : string)
| end_headers
| wfile_write (b : body)
| send_error (code : Z).

Definition response := list output.

(** The status line of a response: the code of its first
    [send_response] or [send_error]. *)
Fixpoint status (r : response) : option Z :=
  match r with
  | [] => None
  | send_response code :: _ => Some code
  | send_error code :: _ => Some code
  | _ :: rest => status rest
  end.

(** The bodies written to [wfile]. *)
Fixpoint written (r : response) : list body :=
  match r with
  | [] => []
  | wfile_write b :: rest => b :: written rest
  | _ :: rest => written rest
  end.

Definition json_opt_string (v : option string) : json_value :=
  match v with Some s => JString s | None => JNull end.

Definition json_opt_int (v : option Z) : json_value :=
  match v with Some n => JInt n | None => JNull end.

Definition beat_dict (beat : Beat) : json_value :=
  JObject
    [("id", JInt (beat_id beat));
     ("title", JString (beat_title beat));
     ("slug", JString (beat_slug beat));
     ("description", json_opt_string (beat_description beat));
     ("genre", json_opt_string (beat_genre beat));
     ("bpm", json_opt_int (beat_bpm beat));
     ("duration", json_opt_int (beat_duration beat));
     ("fileType", JString (beat_file_type beat));
     ("fileName", JString (beat_file_name beat));
     ("fileUrl", JString ("/api/audio/" ++ beat_file_name beat))].

Definition json_ok (payload : json_value) : response :=
  [send_response 200;
   send_header "Content-Type" "application/json";
   send_header "Access-Control-Allow-Origin" "*";
   end_headers;
   wfile_write (JsonBody payload)].

Definition json_bad_request (message : string) : response :=
  [send_response 400;
   send_header "Content-Type" "application/json";
   end_headers;
   wfile_write (JsonBody (JObject [("error", JString message)]))].

(** The [try] block of [handle_get_beat]. *)
Definition handle_get_beat_try (beat_id' : string) (db : database)
  : database * (exn + response) :=
  match py_int beat_id' with
  | None => (db, inl ValueError)
  | Some n =>
      match get_beat_by_id n db with
      | (db', inl e) => (db', inl e)
      | (db', inr None) => (db', inr [send_error 404])
      | (db', inr (Some beat)) => (db', inr (json_ok (beat_dict beat)))
      end
  end.

(** [handle_get_beat]: [except Exception] answers 500. *)
Definition handle_get_beat (beat_id' : string) (db : database)
  : database * response :=
  match handle_get_beat_try beat_id' db with
  | (db', inr r) => (db', r)
  | (db', inl _) => (db', [send_error 500])
  end.

(** [handle_beats_list] *)
Definition handle_beats_list (c : clock) (folder : folder_state) (db : database)
  : database * response :=
  match get_all_beats c folder db with
  | (db', inr rows) => (db', json_ok (JArray (map beat_dict rows)))
  | (db', inl _) => (db', [send_error 500])
  end.

(** A path the handler can reach on disk: a file that opens and reads,
    or something that exists and has a size but does not open for
    reading (a directory). *)
Inductive fs_node :=
| RegularFile (content : string)
| Directory (size : nat).

Definition filesystem := string -> option fs_node.

Definition getsize (node : fs_node) : nat :=
  match node with
  | RegularFile content => String.length content
  | Directory size => size
  end.

Definition str_of_nat (n : nat) : string :=
  NilZero.string_of_uint (Nat.to_uint n).

Definition fallback_content_type (file_name : string) : string :=
  if endswith ".mp3" (lower file_name) then "audio/mpeg"
  else if endswith ".wav" (lower file_name) then "audio/wav"
  else if endswith ".m4a" (lower file_name) then "audio/mp4"
  else "audio/mpeg".

(** [handle_audio_stream].  [BEATS_FOLDER] is the configured folder,
    [cwd] the working directory [abspath] refers to, [guess_type] the
    table of [mimetypes]. *)
Definition handle_audio_stream (BEATS_FOLDER cwd : string) (fs : filesystem)
  (guess_type : string -> option string) (file_name : string) : response :=
  let file_path := PosixPath.join BEATS_FOLDER file_name in
  if negb (startswith (abspath cwd BEATS_FOLDER) (abspath cwd file_path))
  then [send_error 403]
  else
    match fs file_path with
    | None => [send_error 404]
    | Some node =>
        let content_type :=
          match guess_type file_path with
          | Some t => if String.eqb t "" then fallback_content_type file_name else t
          | None => fallback_content_type file_name
          end in
        let file_size := getsize node in
        [send_response 200;
         send_header "Content-Type" content_type;
         send_header "Content-Length" (str_of_nat file_size);
         send_header "Accept-Ranges" "bytes";
         send_header "Access-Control-Allow-Origin" "*";
         end_headers]
        ++ match node with
           | RegularFile content => [wfile_write (RawBody content)]
           | Directory _ => [send_error 500]
           end
    end%list.

Definition required_fields : list string := ["beatId"; "name"; "email"; "offer"].

(** [all(field in data for field in fields)] *)
Fixpoint all_in (fields : list string) (data : json_value) : exn + bool :=
  match fields with
  | [] => inr true
  | field :: rest =>
      match py_in field data with
      | inl e => inl e
      | inr false => inr false
      | inr true => all_in rest data
      end
  end.

(** ['@' not in email or '.' not in email] *)
Definition email_invalid (email : json_value) : exn + bool :=
  match py_in "@" email with
  | inl e => inl e
  | inr false => inr true
  | inr true =>
      match py_in "." email with
      | inl e => inl e
      | inr b => inr (negb b)
      end
  end.

(** The [try] block of [handle_inquiry_submission], from the result of
    [json.loads(body)] on. *)
Definition handle_inquiry_submission_try (now : Z) (loaded : exn + json_value)
  (db : database) : database * (exn + response) :=
  match loaded with
  | inl e => (db, inl e)
  | inr data =>
      match all_in required_fields data with
      | inl e => (db, inl e)
      | inr false => (db, inr (json_bad_request "Missing required fields"))
      | inr true =>
          match getitem data "email" with
          | inl e => (db, inl e)
          | inr email =>
              match email_invalid email with
              | inl e => (db, inl e)
              | inr true => (db, inr (json_bad_request "Invalid email format"))
              | inr false =>
                  match getitem data "beatId", getitem data "name",
                        getitem data "offer" with
                  | inr beat_id', inr name, inr offer =>
                      match save_inquiry now beat_id' name email offer db with
                      | (db', inl e) => (db', inl e)
                      | (db', inr inquiry_id) =>
                          (db',
                           inr (json_ok
                                  (JObject
                                     [("success", JBool true);
                                      ("inquiryId", JInt inquiry_id);
                                      ("message",
                                       JString "Inquiry submitted successfully")])))
                      end
                  | inl e, _, _ => (db, inl e)
                  | _, inl e, _ => (db, inl e)
                  | _, _, inl e => (db, inl e)
                  end
              end
          end
      end
  end.

(** [handle_inquiry_submission]: [except json.JSONDecodeError] answers
    400, [except Exception] answers 500. *)
Definition handle_inquiry_submission (now : Z) (loaded : exn + json_value)
  (db : database) : database * response :=
  match handle_inquiry_submission_try now loaded db with
  | (db', inr r) => (db', r)
  | (db', inl JSONDecodeError) => (db', [send_error 400])
  | (db', inl _) => (db', [send_error 500])
  end.

(** [serve_file]: [server_dir] is [os.path.dirname(__file__)]. *)
Definition serve_file (server_dir : string) (fs : filesystem)
  (file_name content_type : string) : response :=
  let file_path := PosixPath.join server_dir file_name in
  match fs file_path with
  | None => [send_error 404]
  | Some (Directory _) => [send_error 500]
  | Some (RegularFile content) =>
      [send_response 200;
       send_header "Content-Type" content_type;
       send_header "Content-Length" (str_of_nat (String.length content));
       end_headers;
       wfile_write (RawBody content)]
  end.

(** [do_OPTIONS] *)
Definition do_OPTIONS : response :=
  [send_response 200;
   send_header "Access-Control-Allow-Origin" "*";
   send_header "Access-Control-Allow-Methods" "GET, POST, OPTIONS";
   send_header "Access-Control-Allow-Headers" "Content-Type";
   end_headers].

(** What a request finds outside the database: the time of its one
    insert, the clock of its sync pass, the state of the beats folder,
    the configured folder path, the working directory, the directory of
    the server file, the files on disk and the table of [mimetypes]. *)
Record environment := mkEnvironment {
  env_now : Z;
  env_clock : clock;
  env_folder : folder_state;
  env_BEATS_FOLDER : string;
  env_cwd : string;
  env_server_dir : string;
  env_fs : filesystem;
  env_guess_type : string -> option string
}.

(** [do_GET], from [self.path] on. *)
Definition do_GET (env : environment) (path : string) (db : database)
  : database * response :=
  let parsed_path := Urllib.unquote path in
  if String.eqb parsed_path "/api/beats"
  then handle_beats_list (env_clock env) (env_folder env) db
  else if startswith "/api/beats/" parsed_path
  then
    let beat_id' := last (split "/" parsed_path) "" in
    handle_get_beat beat_id' db
  else if startswith "/api/audio/" parsed_path
  then
    let file_name := Urllib.unquote (replace "/api/audio/" "" parsed_path) in
    (db,
     handle_audio_stream (env_BEATS_FOLDER env) (env_cwd env) (env_fs env)
       (env_guess_type env) file_name)
  else if String.eqb parsed_path "/" || String.eqb parsed_path "/index.html"
  then (db, serve_file (env_server_dir env) (env_fs env) "index.html" "text/html")
  else (db, [send_error 404]).

(** [do_POST], from [self.path] and the result of [json.loads] on. *)
Definition do_POST (env : environment) (path : string)
  (loaded : exn + json_value) (db : database) : database * response :=
  let parsed_path := Urllib.unquote path in
  if String.eqb parsed_path "/api/inquiry"
  then handle_inquiry_submission (env_now env) loaded db
  else (db, [send_error 404]).

End BeatStoreHandler.

(** ** The vocabulary of the specification

    These definitions follow the words of the specification, not the
    code; the theorems below compare the two. *)

Module Spec.
Import PyStr PosixPath Values Sqlite BeatsDatabase BeatStoreHandler.

(** [c] occurs in [s]. *)
Fixpoint mem_char (c : ascii) (s : string) : bool :=
  match s with
  | EmptyString => false
  | String a r => Ascii.eqb a c || mem_char c r
  end.

(** The recognised audio extensions, without the dot. *)
Definition audio_types : list string := ["mp3"; "wav"; "m4a"; "flac"; "ogg"].

(** A name ends with a recognised extension, compared without case. *)
Definition has_audio_extension (name : string) : Prop :=
  exists stem ext,
    name = (stem ++ "." ++ ext)%string /\ In (lower ext) audio_types.

(** The slug character at one position of the title: a hyphen for a
    space or an underscore, the lower-cased character otherwise. *)
Definition slug_char (c : ascii) : ascii :=
  if Ascii.eqb c " " || Ascii.eqb c "_" then "-"%char else lower_char c.

(** The rows of the catalog that carry a given file name. *)
Definition rows_named (file_name : string) (db : database) : list Beat :=
  filter (fun b => String.eqb (beat_file_name b) file_name) (beats db).

Definition cataloged (file_name : string) (db : database) : bool :=
  existsb (fun b => String.eqb (beat_file_name b) file_name) (beats db).

(** The components of a path. *)
Definition components (path : string) : list string :=
  filter (fun c => negb (String.eqb c "")) (split "/" path).

Fixpoint list_prefix (xs ys : list string) : bool :=
  match xs, ys with
  | [], _ => true
  | _ :: _, [] => false
  | x :: xs', y :: ys' => String.eqb x y && list_prefix xs' ys'
  end.

(** The absolute form of [path] lies in the directory [root] or below
    it: component by component, [root] leads to it. *)
Definition resolves_inside (cwd root path : string) : bool :=
  list_prefix (components (abspath cwd root)) (components (abspath cwd path)).

(** The row one pass of sync writes for a new file: the metadata is
    taken from the name, the optional columns are empty. *)
Definition derived_row (rowid now : Z) (file_name : string) : Beat :=
  mkBeat rowid (title_of file_name) (slug_of file_name) None None None None
    file_name (file_type_of file_name) now.

(** The connection after one more row of [beats] was written in its
    open transaction. *)
Definition with_row (conn : connection) (row : Beat) : connection :=
  mkConnection (committed conn)
    (mkDatabase (beats (pending conn) ++ [row]) (beat_id row)
       (exclusive_inquiries (pending conn)) (inquiries_seq (pending conn))).

(** The id the next inserted beat gets. *)
Definition next_beat_id (db : database) : Z :=
  next_rowid (map beat_id (beats db)) (beats_seq db).

(** What decides whether an insert conflicts: names and slugs. *)
Definition row_key (b : Beat) : string * string :=
  (beat_file_name b, beat_slug b).

(** A key of the request object. *)
Definition present (field : string) (items : list (string * json_value)) : bool :=
  existsb (fun kv => String.eqb (fst kv) field) items.

(** A value the inquiry table stores: it binds, and not to [NULL]. *)
Definition storable (v : json_value) (stored : sql_value) : Prop :=
  bind_param v = inr stored /\ stored <> SqlNull.

(** What the schema promises of a store: row ids are distinct in each
    table and slugs are distinct. *)
Definition consistent (db : database) : Prop :=
  NoDup (map beat_id (beats db))
  /\ NoDup (map beat_slug (beats db))
  /\ NoDup (map inq_id (exclusive_inquiries db)).

(** No insert of a pass over [files] can conflict: the slug of a name
    that is not cataloged is not stored, and two such names with one
    slug are one name. *)
Definition no_collision (files : list string) (db : database) : Prop :=
  (forall f,
     In f files -> cataloged f db = false ->
     slug_taken (slug_of f) (beats db) = false)
  /\ (forall f g,
        In f files -> In g files ->
        cataloged f db = false -> cataloged g db = false ->
        slug_of f = slug_of g -> f = g).

(** [a] may stand before [b] in a listing, newest first. *)
Definition newer_or_same (a b : Beat) : Prop :=
  beat_created_at b <= beat_created_at a.

(** The number of slashes [normpath] keeps in front of a path. *)
Definition leading_slashes (path : string) : nat :=
  if startswith "/" path then
    if startswith "//" path && negb (startswith "///" path) then 2%nat
    else 1%nat
  else 0%nat.

(** The length of the run of slashes a path starts with. *)
Fixpoint slash_run (path : string) : nat :=
  match path with
  | String c r => if Ascii.eqb c "/" then S (slash_run r) else 0%nat
  | EmptyString => 0%nat
  end.

(** The signals of the error taxonomy, as status codes. *)
Definition validation_signal : Z := 400.
Definition forbidden_signal : Z := 403.
Definition not_found_signal : Z := 404.
Definition internal_failure_signal : Z := 500.

End Spec.

Import PyStr PosixPath Values Sqlite BeatsDatabase BeatStoreHandler Spec.

(** * Properties *)

(** ** Strings and paths *)

Section StringFacts.

Lemma length_map_chars (f : ascii -> ascii) (s : string) :
  String.length (map_chars f s) = String.length s.
Proof. induction s; simpl; congruence. Qed.

Lemma map_chars_app (f : ascii -> ascii) (s t : string) :
  map_chars f (s ++ t) = (map_chars f s ++ map_chars f t)%string.
Proof. induction s; simpl; congruence. Qed.

Lemma take_app (s t : string) : take (String.length s) (s ++ t) = s.
Proof. induction s; simpl; [destruct t; reflexivity | congruence]. Qed.

Lemma drop_app (s t : string) : drop (String.length s) (s ++ t) = t.
Proof. induction s; simpl; auto. Qed.

Lemma take_drop (n : nat) (s : string) : (take n s ++ drop n s)%string = s.
Proof.
  revert s; induction n as [|n IH]; intros [|c r]; simpl; try reflexivity.
  now rewrite IH.
Qed.

Lemma length_take (n : nat) (s : string) :
  (n <= String.length s)%nat -> String.length (take n s) = n.
Proof.
  revert s; induction n as [|n IH]; intros [|c r]; simpl; intros H;
    try reflexivity; try lia.
  rewrite IH; lia.
Qed.

Lemma map_chars_take (f : ascii -> ascii) (n : nat) (s : string) :
  map_chars f (take n s) = take n (map_chars f s).
Proof.
  revert s; induction n as [|n IH]; intros [|c r]; simpl; try reflexivity.
  now rewrite IH.
Qed.

Lemma map_chars_drop (f : ascii -> ascii) (n : nat) (s : string) :
  map_chars f (drop n s) = drop n (map_chars f s).
Proof.
  revert s; induction n as [|n IH]; intros [|c r]; simpl; try reflexivity.
  apply IH.
Qed.

Lemma str_length_app (s t : string) :
  String.length (s ++ t) = (String.length s + String.length t)%nat.
Proof. induction s; simpl; auto. Qed.

Lemma endswith_iff (x s : string) :
  endswith x s = true <-> exists p, s = (p ++ x)%string.
Proof.
  unfold endswith; split.
  - intros H. apply andb_true_iff in H as [_ H].
    apply String.eqb_eq in H.
    remember (String.length s - String.length x)%nat as n.
    exists (take n s). rewrite <- H. symmetry; apply take_drop.
  - intros [p ->]. rewrite str_length_app.
    apply andb_true_iff; split; [apply Nat.leb_le; lia|].
    replace (String.length p + String.length x - String.length x)%nat
      with (String.length p) by lia.
    rewrite drop_app. apply String.eqb_refl.
Qed.

Lemma mem_char_app (c : ascii) (s t : string) :
  mem_char c (s ++ t) = mem_char c s || mem_char c t.
Proof. induction s; simpl; [reflexivity|]. now rewrite IHs, orb_assoc. Qed.

Lemma rfind_ge (c : ascii) (s : string) : -1 <= rfind c s.
Proof.
  induction s as [|a r IH]; simpl; [lia|].
  destruct (0 <=? rfind c r) eqn:E; [apply Z.leb_le in E; lia|].
  destruct (Ascii.eqb a c); lia.
Qed.

Lemma rfind_absent (c : ascii) (s : string) :
  mem_char c s = false -> rfind c s = -1.
Proof.
  induction s as [|a r IH]; simpl; [reflexivity|].
  intros H. apply orb_false_iff in H as [Ha Hr].
  rewrite (IH Hr), Ha. reflexivity.
Qed.

Lemma rfind_last (c : ascii) (s t : string) :
  mem_char c t = false ->
  rfind c (s ++ String c t) = Z.of_nat (String.length s).
Proof.
  intros Ht. induction s as [|a r IH].
  - simpl. rewrite (rfind_absent _ _ Ht). simpl. now rewrite Ascii.eqb_refl.
  - change ((String a r ++ String c t)%string) with (String a (r ++ String c t)).
    cbn [rfind]. rewrite IH.
    destruct (0 <=? Z.of_nat (String.length r)) eqn:E.
    + cbn [String.length]. lia.
    + apply Z.leb_gt in E. lia.
Qed.

Lemma splitext_stem_ext (stem ext : string) :
  mem_char "/" stem = false -> mem_char "/" ext = false ->
  mem_char "." ext = false -> only_dots stem = false ->
  splitext (stem ++ "." ++ ext) = (stem, ("." ++ ext)%string).
Proof.
  intros Hs1 Hs2 Hd Hnd. unfold splitext.
  change (("." ++ ext)%string) with (String "." ext).
  rewrite (rfind_last "." stem ext Hd).
  rewrite rfind_absent.
  2:{ rewrite mem_char_app. simpl. now rewrite Hs1, Hs2. }
  replace (-1 <? Z.of_nat (String.length stem)) with true
    by (symmetry; apply Z.ltb_lt; lia).
  rewrite Nat2Z.id. change (Z.to_nat (-1 + 1)) with 0%nat. cbn [drop].
  rewrite take_app, Hnd, drop_app. reflexivity.
Qed.

Lemma lower_char_slug (c : ascii) :
  (if Ascii.eqb (if Ascii.eqb (lower_char c) " " then "-"%char else lower_char c) "_"
   then "-"%char
   else if Ascii.eqb (lower_char c) " " then "-"%char else lower_char c)
  = slug_char c.
Proof.
  destruct c as [[] [] [] [] [] [] [] []]; reflexivity.
Qed.

Lemma slug_positional (t : string) :
  replace_char "_" "-" (replace_char " " "-" (lower t)) = map_chars slug_char t.
Proof.
  unfold replace_char, lower.
  induction t as [|c r IH]; simpl; [reflexivity|].
  rewrite IH. f_equal. apply lower_char_slug.
Qed.

End StringFacts.

Section ExtensionFilter.

Lemma lower_char_dot (c : ascii) : lower_char c = "."%char -> c = "."%char.
Proof.
  destruct c as [[] [] [] [] [] [] [] []]; cbv; intros H;
    first [reflexivity | discriminate H].
Qed.

Lemma audio_extensions_types (x : string) :
  In x audio_extensions <-> exists t, x = String "." t /\ In t audio_types.
Proof.
  unfold audio_extensions, audio_types; simpl; split.
  - intros H.
    repeat (destruct H as [<- | H]; [eexists; split; [reflexivity|]; tauto|]).
    contradiction.
  - intros [t [-> H]].
    repeat (destruct H as [<- | H]; [tauto|]). contradiction.
Qed.

Lemma is_audio_file_iff (f : string) :
  is_audio_file f = true <-> has_audio_extension f.
Proof.
  unfold is_audio_file, endswith_any, has_audio_extension; split.
  - intros H. apply existsb_exists in H as [x [Hx He]].
    apply audio_extensions_types in Hx as [t [-> Ht]].
    apply endswith_iff in He as [p Hp].
    pose proof (take_drop (String.length p) f) as Hf.
    assert (Hd : lower (drop (String.length p) f) = String "." t).
    { unfold lower. rewrite map_chars_drop. fold (lower f).
      rewrite Hp. apply drop_app. }
    destruct (drop (String.length p) f) as [|c ext] eqn:Ed;
      [discriminate Hd|].
    unfold lower in Hd; simpl in Hd. injection Hd as Hc Hext.
    apply lower_char_dot in Hc; subst c.
    exists (take (String.length p) f), ext. split.
    + now rewrite <- Hf at 1.
    + unfold lower. now rewrite Hext.
  - intros [stem [ext [-> Hin]]].
    apply existsb_exists. exists (String "." (lower ext)). split.
    + apply audio_extensions_types. eauto.
    + apply endswith_iff. exists (lower stem).
      unfold lower. now rewrite map_chars_app.
Qed.

End ExtensionFilter.

(** ** The sync loop *)

Section SyncLoop.

Lemma find_none_existsb {A} (p : A -> bool) (l : list A) :
  find p l = None <-> existsb p l = false.
Proof.
  induction l as [|a l IH]; simpl; [tauto|].
  destruct (p a); simpl; [split; discriminate | exact IH].
Qed.

(** One turn of the loop: a name already in the table is skipped,
    another one is inserted, and a slug already taken raises. *)
Lemma sync_loop_cons (c : clock) (f : string) (rest : list string)
  (conn : connection) :
  sync_loop c (f :: rest) conn =
  if cataloged f (pending conn) then sync_loop (later c) rest conn
  else if slug_taken (slug_of f) (beats (pending conn))
       then (conn, inl (IntegrityError (Unique "beats.slug")))
       else sync_loop (later c) rest
              (with_row conn
                 (derived_row (next_beat_id (pending conn)) (c 0%nat) f)).
Proof.
  cbn [sync_loop]. unfold bind at 1. unfold select_id_by_file_name, cataloged.
  destruct (find _ (beats (pending conn))) as [b|] eqn:Ef.
  - assert (E : existsb (fun b => String.eqb (beat_file_name b) f)
                  (beats (pending conn)) = true).
    { destruct (existsb _ _) eqn:E; [reflexivity|].
      apply find_none_existsb in E. congruence. }
    now rewrite E.
  - apply find_none_existsb in Ef. rewrite Ef. cbn [option_map].
    unfold bind, insert_beat. cbn [binds_int andb negb].
    destruct (slug_taken _ _); reflexivity.
Qed.

Lemma cataloged_with_row (f : string) (conn : connection) (row : Beat) :
  cataloged f (pending (with_row conn row)) =
  cataloged f (pending conn) || String.eqb (beat_file_name row) f.
Proof.
  unfold cataloged, with_row; cbn. rewrite existsb_app; cbn.
  now rewrite orb_false_r.
Qed.

Lemma slug_taken_with_row (s : string) (conn : connection) (row : Beat) :
  slug_taken s (beats (pending (with_row conn row))) =
  slug_taken s (beats (pending conn)) || String.eqb (beat_slug row) s.
Proof.
  unfold slug_taken, with_row; cbn. rewrite existsb_app; cbn.
  now rewrite orb_false_r.
Qed.

(** The loop only appends rows to [beats], all of them derived from
    names of the list that were not in the table; it never commits. *)
Lemma sync_loop_appends (files : list string) :
  forall c conn conn' r,
    sync_loop c files conn = (conn', r) ->
    committed conn' = committed conn
    /\ exclusive_inquiries (pending conn') = exclusive_inquiries (pending conn)
    /\ inquiries_seq (pending conn') = inquiries_seq (pending conn)
    /\ exists added,
         beats (pending conn') = (beats (pending conn) ++ added)%list
         /\ Forall (fun row =>
                      exists rowid i f,
                        row = derived_row rowid (c i) f
                        /\ In f files
                        /\ cataloged f (pending conn) = false) added.
Proof.
  induction files as [|f rest IH]; intros c conn conn' r H.
  - cbn in H. injection H as <- <-. repeat split; try reflexivity.
    exists []. now rewrite app_nil_r.
  - rewrite sync_loop_cons in H.
    destruct (cataloged f (pending conn)) eqn:Ec.
    + apply IH in H as (H1 & H2 & H3 & added & H4 & H5).
      repeat split; try assumption. exists added; split; [assumption|].
      eapply Forall_impl; [|exact H5]. cbv beta.
      intros row (rowid & i & g & Hr & Hg & Hc). exists rowid, (S i), g.
      split; [exact Hr|]. split; [now right | exact Hc].
    + destruct (slug_taken _ _) eqn:Es.
      * injection H as <- <-. repeat split; try reflexivity.
        exists []. now rewrite app_nil_r.
      * apply IH in H as (H1 & H2 & H3 & added & H4 & H5).
        repeat split; try assumption.
        exists (derived_row (next_beat_id (pending conn)) (c 0%nat) f :: added).
        split.
        { rewrite H4. cbn. now rewrite <- app_assoc. }
        constructor.
        { exists (next_beat_id (pending conn)), 0%nat, f.
          split; [reflexivity|]. split; [now left | exact Ec]. }
        eapply Forall_impl; [|exact H5]. cbv beta.
        intros row (rowid & i & g & Hr & Hg & Hc). exists rowid, (S i), g.
        split; [exact Hr|]. split; [now right|].
        rewrite cataloged_with_row in Hc.
        now apply orb_false_iff in Hc as [Hc _].
Qed.

(** When every name is already in the table the loop changes nothing. *)
Lemma sync_loop_all_cataloged (files : list string) (conn : connection) :
  forall c,
    (forall f, In f files -> cataloged f (pending conn) = true) ->
    sync_loop c files conn = (conn, inr tt).
Proof.
  induction files as [|f rest IH]; intros c H; [reflexivity|].
  rewrite sync_loop_cons, (H f (or_introl eq_refl)).
  apply IH. intros g Hg. apply H. now right.
Qed.

End SyncLoop.

Section SyncOutcome.

Lemma rows_named_with_row (f : string) (conn : connection) (row : Beat) :
  rows_named f (pending (with_row conn row)) =
  (rows_named f (pending conn)
   ++ if String.eqb (beat_file_name row) f then [row] else [])%list.
Proof.
  unfold rows_named, with_row; cbn. rewrite filter_app; cbn.
  now destruct (String.eqb (beat_file_name row) f).
Qed.

Lemma cataloged_rows_named (f : string) (db : database) :
  cataloged f db = negb (Nat.eqb (List.length (rows_named f db)) 0).
Proof.
  unfold cataloged, rows_named.
  induction (beats db) as [|b l IH]; cbn; [reflexivity|].
  destruct (String.eqb (beat_file_name b) f); cbn; [reflexivity | exact IH].
Qed.

(** After a pass that ran to its end, a name of the list has the rows
    it had, or one row when it had none; other names keep theirs. *)
Lemma sync_loop_counts (files : list string) :
  forall c conn conn',
    sync_loop c files conn = (conn', inr tt) ->
    forall f,
      (In f files ->
       List.length (rows_named f (pending conn')) =
       Nat.max 1 (List.length (rows_named f (pending conn))))
      /\ (~ In f files ->
          List.length (rows_named f (pending conn')) =
          List.length (rows_named f (pending conn))).
Proof.
  induction files as [|g rest IH]; intros c conn conn' H f.
  - cbn in H. injection H as <-. split; [intros []|reflexivity].
  - rewrite sync_loop_cons in H.
    destruct (cataloged g (pending conn)) eqn:Ec.
    + destruct (IH _ _ _ H f) as [Hin Hout].
      rewrite cataloged_rows_named in Ec.
      split.
      * intros [->|Hf]; [|now apply Hin].
        destruct (in_dec string_dec f rest) as [Hf|Hf]; [now apply Hin|].
        rewrite (Hout Hf).
        destruct (List.length (rows_named f (pending conn)));
          [discriminate Ec | lia].
      * intros Hf. apply Hout. intros Hr. apply Hf. now right.
    + destruct (slug_taken _ _) eqn:Es; [discriminate H|].
      destruct (IH _ _ _ H f) as [Hin Hout].
      rewrite rows_named_with_row, List.length_app in Hin, Hout.
      rewrite cataloged_rows_named in Ec.
      cbn [derived_row beat_file_name] in Hin, Hout.
      destruct (string_dec g f) as [->|Hgf].
      * rewrite String.eqb_refl in Hin, Hout. cbn [List.length] in Hin, Hout.
        destruct (List.length (rows_named f (pending conn)));
          [|discriminate Ec].
        split; intros Hf; [|exfalso; apply Hf; now left].
        destruct (in_dec string_dec f rest) as [Hr|Hr];
          [rewrite (Hin Hr) | rewrite (Hout Hr)]; reflexivity.
      * assert (E : String.eqb g f = false) by now apply String.eqb_neq.
        rewrite E in Hin, Hout. cbn [List.length] in Hin, Hout.
        rewrite Nat.add_0_r in Hin, Hout.
        split.
        -- intros [->|Hf]; [contradiction | now apply Hin].
        -- intros Hf. apply Hout. intros Hr. apply Hf. now right.
Qed.

(** A new name whose slug is already in the table stops the loop. *)
Lemma sync_loop_slug_conflict (files : list string) :
  forall c conn f,
    In f files ->
    cataloged f (pending conn) = false ->
    slug_taken (slug_of f) (beats (pending conn)) = true ->
    exists conn',
      sync_loop c files conn = (conn', inl (IntegrityError (Unique "beats.slug"))).
Proof.
  induction files as [|g rest IH]; intros c conn f Hin Hc Hs; [destruct Hin|].
  rewrite sync_loop_cons.
  destruct (cataloged g (pending conn)) eqn:Ec.
  - destruct Hin as [->|Hin]; [congruence|]. now apply (IH _ conn f).
  - destruct (slug_taken (slug_of g) _) eqn:Es; [now exists conn|].
    destruct Hin as [->|Hin]; [congruence|].
    apply (IH _ _ f Hin).
    + rewrite cataloged_with_row, Hc. cbn.
      apply String.eqb_neq. intros ->. congruence.
    + now rewrite slug_taken_with_row, Hs.
Qed.

(** Two new names with one slug stop the loop, whatever their order. *)
Lemma sync_loop_twin_slugs (files : list string) :
  forall c conn f1 f2,
    In f1 files -> In f2 files -> f1 <> f2 ->
    cataloged f1 (pending conn) = false ->
    cataloged f2 (pending conn) = false ->
    slug_of f1 = slug_of f2 ->
    exists conn',
      sync_loop c files conn = (conn', inl (IntegrityError (Unique "beats.slug"))).
Proof.
  induction files as [|g rest IH]; intros c conn f1 f2 H1 H2 Hne Hc1 Hc2 Hs;
    [destruct H1|].
  destruct (cataloged g (pending conn)) eqn:Ec.
  - rewrite sync_loop_cons, Ec.
    destruct H1 as [->|H1]; [congruence|].
    destruct H2 as [->|H2]; [congruence|].
    now apply (IH _ conn f1 f2).
  - destruct (slug_taken (slug_of g) (beats (pending conn))) eqn:Es.
    { rewrite sync_loop_cons, Ec, Es. now exists conn. }
    set (conn1 := with_row conn
                    (derived_row (next_beat_id (pending conn)) (c 0%nat) g)).
    assert (Hstep : sync_loop c (g :: rest) conn
                    = sync_loop (later c) rest conn1)
      by now rewrite sync_loop_cons, Ec, Es.
    rewrite Hstep.
    assert (Hfresh : forall f, f <> g -> cataloged f (pending conn) = false ->
                               cataloged f (pending conn1) = false).
    { intros f Hf Hc. unfold conn1. rewrite cataloged_with_row, Hc. cbn.
      apply String.eqb_neq. congruence. }
    assert (Htaken : slug_taken (slug_of g) (beats (pending conn1)) = true).
    { unfold conn1. rewrite slug_taken_with_row. cbn.
      rewrite String.eqb_refl. apply orb_true_r. }
    destruct H1 as [->|H1]; destruct H2 as [->|H2].
    + contradiction.
    + apply (sync_loop_slug_conflict rest (later c) conn1 f2 H2).
      * apply Hfresh; congruence.
      * now rewrite <- Hs.
    + apply (sync_loop_slug_conflict rest (later c) conn1 f1 H1).
      * apply Hfresh; congruence.
      * now rewrite Hs.
    + destruct (string_dec f1 g) as [->|N1].
      { apply (sync_loop_slug_conflict rest (later c) conn1 f2 H2).
        - apply Hfresh; congruence.
        - now rewrite <- Hs. }
      destruct (string_dec f2 g) as [->|N2].
      { apply (sync_loop_slug_conflict rest (later c) conn1 f1 H1).
        - apply Hfresh; congruence.
        - now rewrite Hs. }
      apply (IH _ conn1 f1 f2); auto.
Qed.

End SyncOutcome.

Section SyncTime.

Lemma cataloged_row_key (f : string) (db : database) :
  cataloged f db =
  existsb (fun k => String.eqb (fst k) f) (map row_key (beats db)).
Proof.
  unfold cataloged. induction (beats db) as [|b l IH]; cbn; congruence.
Qed.

Lemma slug_taken_row_key (s : string) (rows : list Beat) :
  slug_taken s rows = existsb (fun k => String.eqb (snd k) s) (map row_key rows).
Proof.
  unfold slug_taken. induction rows as [|b l IH]; cbn; congruence.
Qed.

(** Whether a pass fails, and which names and slugs it writes, does not
    depend on the clock. *)
Lemma sync_loop_time_irrelevant (files : list string) :
  forall c1 c2 conn1 conn2,
    map row_key (beats (pending conn1)) = map row_key (beats (pending conn2)) ->
    snd (sync_loop c1 files conn1) = snd (sync_loop c2 files conn2)
    /\ map row_key (beats (pending (fst (sync_loop c1 files conn1))))
       = map row_key (beats (pending (fst (sync_loop c2 files conn2)))).
Proof.
  induction files as [|f rest IH]; intros c1 c2 conn1 conn2 Hk; [now split|].
  rewrite !sync_loop_cons, !cataloged_row_key, !slug_taken_row_key, Hk.
  destruct (existsb _ _); [now apply IH|].
  destruct (existsb _ _); [now split|].
  apply IH. unfold with_row; cbn. rewrite !map_app, Hk. reflexivity.
Qed.

End SyncTime.

Section SyncCall.

Variable c : clock.
Variable entries : list string.
Variable db : database.

(** A pass whose loop raises leaves the file as it was and prints the
    error. *)
Lemma sync_listing_failed (conn' : connection) (e : exn) :
  sync_loop c (filter is_audio_file entries) (connect db) = (conn', inl e) ->
  sync_beats_from_folder c (FolderListing entries) db = (db, ErrorSyncing e).
Proof.
  intros H. pose proof (sync_loop_appends _ _ _ _ _ H) as [Hc _].
  unfold sync_beats_from_folder, sync_try, with_connection, sync_transaction.
  cbn [folder_exists negb listdir].
  unfold bind at 1. rewrite H. cbn. now rewrite Hc.
Qed.

(** A pass whose loop runs to its end is committed. *)
Lemma sync_listing_committed (conn' : connection) :
  sync_loop c (filter is_audio_file entries) (connect db) = (conn', inr tt) ->
  sync_beats_from_folder c (FolderListing entries) db
  = (pending conn', Synced (List.length (filter is_audio_file entries))).
Proof.
  intros H.
  unfold sync_beats_from_folder, sync_try, with_connection, sync_transaction.
  cbn [folder_exists negb listdir].
  unfold bind at 1. rewrite H. reflexivity.
Qed.

End SyncCall.

(** ** [sync_beats_from_folder] *)

Section Sync.

Variable c : clock.

(** The three ways a call ends: folder not found, an error caught with
    the file untouched, or a committed pass. *)
Lemma sync_cases (folder : folder_state) (db : database) :
  (folder = FolderMissing
   /\ sync_beats_from_folder c folder db = (db, FolderNotFound))
  \/ (exists e, sync_beats_from_folder c folder db = (db, ErrorSyncing e))
  \/ (exists entries conn',
        folder = FolderListing entries
        /\ sync_loop c (filter is_audio_file entries) (connect db)
           = (conn', inr tt)
        /\ sync_beats_from_folder c folder db
           = (pending conn',
              Synced (List.length (filter is_audio_file entries)))).
Proof.
  destruct folder as [| |entries].
  - left. now split.
  - right; left. now exists OSError.
  - destruct (sync_loop c (filter is_audio_file entries) (connect db))
      as [conn' [e|[]]] eqn:E.
    + right; left. exists e. eapply sync_listing_failed; eauto.
    + right; right. exists entries, conn'. repeat split; auto.
      now apply sync_listing_committed.
Qed.

(** Sync keeps every row and only adds rows derived from audio names of
    the folder that were not cataloged. *)
Lemma sync_adds_derived_rows (folder : folder_state) (db : database) :
  exists added,
    beats (fst (sync_beats_from_folder c folder db)) = (beats db ++ added)%list
    /\ Forall (fun row =>
                 exists rowid i f entries,
                   folder = FolderListing entries
                   /\ row = derived_row rowid (c i) f
                   /\ In f entries
                   /\ is_audio_file f = true
                   /\ cataloged f db = false) added.
Proof.
  destruct (sync_cases folder db)
    as [[_ H] | [[e H] | (entries & conn' & -> & Hloop & H)]]; rewrite H; cbn [fst].
  - exists []. now rewrite app_nil_r.
  - exists []. now rewrite app_nil_r.
  - apply sync_loop_appends in Hloop as (_ & _ & _ & added & Hb & Hall).
    exists added. split; [exact Hb|].
    eapply Forall_impl; [|exact Hall]. cbv beta.
    intros row (rowid & i & f & Hr & Hf & Hc).
    apply filter_In in Hf as [Hf Ha].
    exists rowid, i, f, entries. repeat split; assumption.
Qed.

(** A row that is in the table after sync and was not there before. *)
Lemma sync_new_row (folder : folder_state) (db : database) (row : Beat) :
  In row (beats (fst (sync_beats_from_folder c folder db))) ->
  ~ In row (beats db) ->
  exists rowid i f entries,
    folder = FolderListing entries
    /\ row = derived_row rowid (c i) f
    /\ In f entries
    /\ is_audio_file f = true
    /\ cataloged f db = false.
Proof.
  intros Hin Hnew.
  destruct (sync_adds_derived_rows folder db) as (added & Hb & Hall).
  rewrite Hb in Hin. apply in_app_or in Hin as [Hin|Hin]; [contradiction|].
  rewrite Forall_forall in Hall. now apply Hall.
Qed.

End Sync.

(** ** Claims about the folder synchroniser *)

(** C9. A sync pass is all-or-nothing: every insert of the pass goes
    through one connection and the commit comes after the loop, so when
    the pass ends on an exception (a slug uniqueness violation, a folder
    that cannot be listed) the rows inserted earlier in the pass are
    rolled back and the store is what it was before the pass. *)
Theorem sync_failed_pass_rolls_back
  (c : clock) (folder : folder_state) (db : database) (e : exn) :
  snd (sync_beats_from_folder c folder db) = ErrorSyncing e ->
  fst (sync_beats_from_folder c folder db) = db.
Proof.
  intros H.
  destruct (sync_cases c folder db)
    as [[_ E] | [[e' E] | (entries & conn' & _ & _ & E)]];
    rewrite E in *; cbn in *; [reflexivity | reflexivity | discriminate H].
Qed.

Lemma sync_failed_pass_rolls_back_witness :
  snd (sync_beats_from_folder (steady 0)
         (FolderListing ["c.mp3"; "a b.mp3"; "a_b.mp3"]) empty_database)
  = ErrorSyncing (IntegrityError (Unique "beats.slug"))
  /\ fst (sync_beats_from_folder (steady 0)
            (FolderListing ["c.mp3"; "a b.mp3"; "a_b.mp3"]) empty_database)
     = empty_database.
Proof.
  split; [vm_compute; reflexivity|].
  apply (sync_failed_pass_rolls_back (steady 0)
           (FolderListing ["c.mp3"; "a b.mp3"; "a_b.mp3"]) empty_database
           (IntegrityError (Unique "beats.slug"))).
  vm_compute; reflexivity.
Defined.

(** In that pass the row of [c.mp3] had been written when the conflict
    was met: the connection saw it, the file never did. *)
Example sync_pending_row_is_dropped :
  exists conn' row,
    sync_loop (steady 0) ["c.mp3"; "a b.mp3"; "a_b.mp3"] (connect empty_database)
    = (conn', inl (IntegrityError (Unique "beats.slug")))
    /\ In row (beats (pending conn'))
    /\ beat_file_name row = "c.mp3"
    /\ beats (committed conn') = [].
Proof.
  eexists; eexists. split; [vm_compute; reflexivity|].
  split; [left; reflexivity|]. split; reflexivity.
Qed.

(** C1, the claim at a folder with two names of one slug and a third
    name: no colliding file is cataloged and the third file is not
    cataloged either. *)
Lemma sync_collision_catalogs_nothing :
  let db' := fst (sync_beats_from_folder (steady 0)
                    (FolderListing ["a b.mp3"; "a_b.mp3"; "c.mp3"])
                    empty_database) in
  slug_of "a b.mp3" = slug_of "a_b.mp3"
  /\ ~ ((List.length (rows_named "a b.mp3" db')
         + List.length (rows_named "a_b.mp3" db') = 1)%nat
        /\ cataloged "c.mp3" db' = true).
Proof.
  split; [vm_compute; reflexivity|].
  vm_compute. intros [H _]. discriminate H.
Qed.

(** C1, amended.  When two differently-named new audio files of the
    folder normalize to the same slug, sync stops the scan at the
    failing insert: it reports the slug conflict once, returns to its
    caller without raising, and leaves the store as it was before the
    pass, so no file of the pass is cataloged. *)
Theorem sync_slug_collision_aborts_pass
  (c : clock) (entries : list string) (db : database) (f1 f2 : string) :
  In f1 entries -> In f2 entries ->
  is_audio_file f1 = true -> is_audio_file f2 = true ->
  f1 <> f2 ->
  cataloged f1 db = false -> cataloged f2 db = false ->
  slug_of f1 = slug_of f2 ->
  sync_beats_from_folder c (FolderListing entries) db
  = (db, ErrorSyncing (IntegrityError (Unique "beats.slug"))).
Proof.
  intros H1 H2 A1 A2 Hne C1 C2 Hs.
  destruct (sync_loop_twin_slugs (filter is_audio_file entries) c
              (connect db) f1 f2) as [conn' Hloop]; auto.
  - apply filter_In; auto.
  - apply filter_In; auto.
  - eapply sync_listing_failed; eauto.
Qed.

Lemma sync_slug_collision_aborts_pass_witness :
  sync_beats_from_folder (steady 3)
    (FolderListing ["Night Drive.wav"; "intro.ogg"; "night_drive.wav"])
    empty_database
  = (empty_database, ErrorSyncing (IntegrityError (Unique "beats.slug"))).
Proof.
  apply (sync_slug_collision_aborts_pass (steady 3)
           ["Night Drive.wav"; "intro.ogg"; "night_drive.wav"] empty_database
           "Night Drive.wav" "night_drive.wav");
    try (vm_compute; reflexivity).
  - now left.
  - right; right; now left.
  - intros H; discriminate H.
Defined.

(** C3, the claim at a folder with two names of one slug: after sync
    these names have no row at all, not one row each. *)
Lemma sync_colliding_names_have_no_row :
  ~ (forall f,
       In f ["Night Drive.wav"; "night_drive.mp3"] ->
       List.length
         (rows_named f
            (fst (sync_beats_from_folder (steady 0)
                    (FolderListing ["Night Drive.wav"; "night_drive.mp3"])
                    empty_database))) = 1%nat).
Proof.
  intros H. specialize (H "Night Drive.wav" (or_introl eq_refl)).
  vm_compute in H. discriminate H.
Qed.

(** C3, amended.  Sync is idempotent: over an unchanged folder the second
    of two consecutive calls leaves the store exactly as the first call
    left it, at whatever times the calls run.  Sync never removes a row.
    After a pass that ran to its commit, every audio file name of the
    folder has the rows it had before, and one row if it had none: so
    exactly one row per file name wherever the store held at most one. *)
Theorem sync_idempotent
  (c1 c2 : clock) (folder : folder_state) (db : database) :
  let db1 := fst (sync_beats_from_folder c1 folder db) in
  fst (sync_beats_from_folder c2 folder db1) = db1
  /\ (exists added, beats db1 = (beats db ++ added)%list)
  /\ (forall entries n f,
        folder = FolderListing entries ->
        snd (sync_beats_from_folder c1 folder db) = Synced n ->
        In f entries -> is_audio_file f = true ->
        List.length (rows_named f db1)
        = Nat.max 1 (List.length (rows_named f db))).
Proof.
  intros db1. split; [|split].
  - subst db1.
    destruct (sync_cases c1 folder db)
      as [[-> E] | [[e E] | (entries & conn' & -> & Hloop & E)]];
      rewrite E; cbn [fst].
    + reflexivity.
    + destruct (sync_cases c2 folder db)
        as [[_ E2] | [[e2 E2] | (entries & conn2 & -> & Hloop2 & E2)]];
        rewrite E2; cbn [fst]; try reflexivity.
      exfalso.
      destruct (sync_loop_time_irrelevant (filter is_audio_file entries)
                  c1 c2 (connect db) (connect db) eq_refl) as [Hsnd _].
      rewrite Hloop2 in Hsnd. cbn [snd] in Hsnd.
      destruct (sync_loop c1 (filter is_audio_file entries) (connect db))
        as [conn1 r1] eqn:E1. cbn [snd] in Hsnd. subst r1.
      rewrite (sync_listing_committed _ _ _ _ E1) in E. discriminate E.
    + rewrite (sync_listing_committed c2 entries (pending conn')
                 (connect (pending conn'))); [reflexivity|].
      apply sync_loop_all_cataloged. intros f Hf.
      destruct (sync_loop_counts _ _ _ _ Hloop f) as [Hin _].
      specialize (Hin Hf). cbn [connect pending] in *.
      rewrite cataloged_rows_named, Hin.
      destruct (List.length (rows_named f db)); reflexivity.
  - destruct (sync_adds_derived_rows c1 folder db) as (added & Hb & _).
    now exists added.
  - intros entries n f -> Hs Hf Ha. subst db1.
    destruct (sync_cases c1 (FolderListing entries) db)
      as [[E _] | [[e E] | (entries' & conn' & Ef & Hloop & E)]].
    + discriminate E.
    + rewrite E in Hs. discriminate Hs.
    + injection Ef as <-. rewrite E; cbn [fst].
      destruct (sync_loop_counts _ _ _ _ Hloop f) as [Hin _].
      apply Hin. apply filter_In. now split.
Qed.

Lemma sync_idempotent_witness :
  let folder := FolderListing ["one.mp3"; "notes.txt"; "Two Step.FLAC"] in
  let db1 := fst (sync_beats_from_folder (steady 10) folder empty_database) in
  fst (sync_beats_from_folder (steady 20) folder db1) = db1
  /\ List.length (rows_named "Two Step.FLAC" db1) = 1%nat.
Proof.
  intros folder db1.
  destruct (sync_idempotent (steady 10) (steady 20) folder empty_database) as (H1 & _ & H3).
  split; [exact H1|].
  apply (H3 ["one.mp3"; "notes.txt"; "Two Step.FLAC"] 2%nat "Two Step.FLAC");
    try (vm_compute; reflexivity).
  right; right; now left.
Defined.

(** ** The listing *)

Lemma insert_desc_perm (b : Beat) (rows : list Beat) :
  Permutation (insert_desc b rows) (b :: rows).
Proof.
  induction rows as [|x rest IH]; cbn; [reflexivity|].
  destruct (beat_created_at x <=? beat_created_at b); [reflexivity|].
  rewrite IH. apply perm_swap.
Qed.

Lemma order_by_created_at_desc_perm (rows : list Beat) :
  Permutation (order_by_created_at_desc rows) rows.
Proof.
  induction rows as [|b rest IH]; cbn; [constructor|].
  rewrite insert_desc_perm. now constructor.
Qed.

(** C10. A failure inside sync never reaches the listing: sync catches
    its own exceptions (folder missing, folder that cannot be listed,
    failed insert), so [get_all_beats] always goes on to the query and
    returns the rows the store holds after sync, and after a failed sync
    these are the rows it held before. *)
Theorem get_all_beats_survives_sync_failure
  (c : clock) (folder : folder_state) (db : database) :
  let after := sync_beats_from_folder c folder db in
  get_all_beats c folder db
  = (fst after, inr (order_by_created_at_desc (beats (fst after))))
  /\ Permutation (order_by_created_at_desc (beats (fst after)))
       (beats (fst after))
  /\ ((snd after = FolderNotFound \/ exists e, snd after = ErrorSyncing e) ->
      get_all_beats c folder db
      = (db, inr (order_by_created_at_desc (beats db)))).
Proof.
  intros after.
  assert (H : get_all_beats c folder db
              = (fst after, inr (order_by_created_at_desc (beats (fst after))))).
  { subst after. unfold get_all_beats.
    destruct (sync_beats_from_folder c folder db) as [db' log].
    reflexivity. }
  split; [exact H|]. split; [apply order_by_created_at_desc_perm|].
  intros Hfail. rewrite H.
  assert (E : fst after = db); [|now rewrite E].
  subst after.
  destruct (sync_cases c folder db)
    as [[_ E] | [[e E] | (entries & conn' & _ & _ & E)]];
    rewrite E in *; cbn [fst snd] in *; try reflexivity.
  destruct Hfail as [Hf|[e Hf]]; discriminate Hf.
Qed.

Lemma get_all_beats_survives_sync_failure_witness :
  let db :=
    mkDatabase
      [mkBeat 1 "old" "old" None None None None "old.mp3" "mp3" 5;
       mkBeat 2 "new" "new" None None None None "new.mp3" "mp3" 9]
      2 [] 0 in
  get_all_beats (steady 11) FolderUnreadable db
  = (db,
     inr [mkBeat 2 "new" "new" None None None None "new.mp3" "mp3" 9;
          mkBeat 1 "old" "old" None None None None "old.mp3" "mp3" 5]).
Proof.
  intros db.
  destruct (get_all_beats_survives_sync_failure (steady 11) FolderUnreadable db)
    as (_ & _ & H).
  rewrite H; [reflexivity|].
  right. exists OSError. reflexivity.
Defined.

(** ** Derived metadata and the extension filter *)

Section DotNames.

Lemma lower_char_keeps_dot (c : ascii) :
  Ascii.eqb (lower_char c) "." = Ascii.eqb c ".".
Proof.
  destruct c as [[] [] [] [] [] [] [] []]; reflexivity.
Qed.

Lemma mem_dot_lower (s : string) : mem_char "." (lower s) = mem_char "." s.
Proof.
  unfold lower. induction s as [|c r IH]; cbn [map_chars mem_char];
    [reflexivity|].
  now rewrite lower_char_keeps_dot, IH.
Qed.

Lemma splitext_dot_name (stem ext : string) :
  mem_char "/" stem = false -> mem_char "/" ext = false ->
  mem_char "." ext = false -> only_dots stem = true ->
  splitext (stem ++ "." ++ ext) = ((stem ++ "." ++ ext)%string, "").
Proof.
  intros Hs1 Hs2 Hd Hdots. unfold splitext.
  change (("." ++ ext)%string) with (String "." ext).
  rewrite (rfind_last "." stem ext Hd).
  rewrite rfind_absent.
  2:{ rewrite mem_char_app. cbn [mem_char]. now rewrite Hs1, Hs2. }
  replace (-1 <? Z.of_nat (String.length stem)) with true
    by (symmetry; apply Z.ltb_lt; lia).
  rewrite Nat2Z.id. change (Z.to_nat (-1 + 1)) with 0%nat. cbn [drop].
  now rewrite take_app, Hdots.
Qed.

(** A recognised audio type holds no dot. *)
Lemma audio_type_no_dot (t : string) :
  In t audio_types -> mem_char "." t = false.
Proof.
  unfold audio_types. cbn [In].
  intros H. repeat (destruct H as [<-|H]; [reflexivity|]). contradiction.
Qed.

End DotNames.


Section Derived.

Variable c : clock.

(** A committed pass writes, for each audio name that was not cataloged,
    the row derived from that name. *)
Lemma sync_catalogs_new_name
  (entries : list string) (db : database) (n : nat) (f : string) :
  snd (sync_beats_from_folder c (FolderListing entries) db) = Synced n ->
  In f entries -> is_audio_file f = true -> cataloged f db = false ->
  exists rowid i,
    In (derived_row rowid (c i) f)
      (beats (fst (sync_beats_from_folder c (FolderListing entries) db))).
Proof.
  intros Hs Hf Ha Hc.
  destruct (sync_cases c (FolderListing entries) db)
    as [[E _] | [[e E] | (entries' & conn' & Ef & Hloop & E)]].
  - discriminate E.
  - rewrite E in Hs. discriminate Hs.
  - injection Ef as <-.
    destruct (sync_loop_counts _ _ _ _ Hloop f) as [Hin _].
    assert (Hff : In f (filter is_audio_file entries))
      by (apply filter_In; now split).
    specialize (Hin Hff). cbn [connect pending] in Hin.
    assert (Hafter : cataloged f (pending conn') = true).
    { rewrite cataloged_rows_named, Hin.
      destruct (List.length (rows_named f db)); reflexivity. }
    unfold cataloged in Hafter.
    apply existsb_exists in Hafter as [row [Hrow Hname]].
    apply String.eqb_eq in Hname.
    assert (Hnew : ~ In row (beats db)).
    { intros Hold. unfold cataloged in Hc.
      assert (Ht : existsb (fun b => String.eqb (beat_file_name b) f) (beats db)
                   = true).
      { apply existsb_exists. exists row. split; [exact Hold|].
        now apply String.eqb_eq. }
      congruence. }
    assert (Hrow' : In row (beats (fst (sync_beats_from_folder c
                                          (FolderListing entries) db))))
      by now rewrite E.
    destruct (sync_new_row c _ _ _ Hrow' Hnew)
      as (rowid & i & g & _ & _ & Hr & _).
    exists rowid, i. rewrite E. cbn [fst].
    assert (g = f) by (rewrite Hr in Hname; exact Hname).
    subst g. now rewrite <- Hr.
Qed.

End Derived.

(** C6, the claim at the file name [.mp3]: sync catalogs it, its
    extension in the sense of the filter is [mp3], yet the title is the
    whole name, not the name without [.mp3], and the file type is
    empty, not [mp3]. *)
Lemma sync_dot_mp3_has_empty_file_type :
  exists row,
    beats (fst (sync_beats_from_folder (steady 0) (FolderListing [".mp3"])
                  empty_database))
    = [row]
    /\ beat_file_name row = ("" ++ "." ++ "mp3")%string
    /\ has_audio_extension (beat_file_name row)
    /\ beat_title row = ".mp3"
    /\ beat_title row <> ""
    /\ beat_file_type row = ""
    /\ beat_file_type row <> lower "mp3".
Proof.
  eexists. split; [vm_compute; reflexivity|].
  split; [reflexivity|]. split; [|split; [|split; [|split]]].
  - exists "", "mp3". split; [reflexivity|]. now left.
  - reflexivity.
  - cbn. intros H; discriminate H.
  - reflexivity.
  - cbn. intros H; discriminate H.
Qed.

(** C6, amended.  For every ASCII file name cataloged by sync that reads
    [stem.ext], where [ext] holds no dot and the name holds no [/]:
    when [stem] holds a character other than a dot, the title is [stem]
    and the file type is [ext] lower-cased; when [stem] holds dots only
    (as in [.mp3]), the title is the whole name and the file type is
    empty.  In both cases the slug is the title lower-cased with a
    hyphen at the position of each space and of each underscore,
    character by character. *)
Theorem sync_derived_fields
  (c : clock) (folder : folder_state) (db : database) (row : Beat)
  (stem ext : string) :
  In row (beats (fst (sync_beats_from_folder c folder db))) ->
  ~ In row (beats db) ->
  beat_file_name row = (stem ++ "." ++ ext)%string ->
  is_ascii (beat_file_name row) = true ->
  mem_char "/" (beat_file_name row) = false ->
  mem_char "." ext = false ->
  (only_dots stem = false ->
   beat_title row = stem /\ beat_file_type row = lower ext)
  /\ (only_dots stem = true ->
      beat_title row = beat_file_name row /\ beat_file_type row = "")
  /\ beat_slug row = map_chars slug_char (beat_title row)
  /\ String.length (beat_slug row) = String.length (beat_title row).
Proof.
  intros Hin Hnew Hname _ Hsep Hdot.
  destruct (sync_new_row c folder db row Hin Hnew)
    as (rowid & i & f & entries & _ & -> & _ & _ & _).
  cbn [derived_row beat_file_name beat_title beat_file_type beat_slug] in *.
  subst f. rewrite mem_char_app in Hsep.
  apply orb_false_iff in Hsep as [Hs1 Hs2].
  change (("." ++ ext)%string) with (String "." ext) in Hs2.
  cbn [mem_char] in Hs2. apply orb_false_iff in Hs2 as [_ Hs2].
  split; [|split; [|split]].
  - intros Hstem. unfold file_type_of, title_of.
    rewrite (splitext_stem_ext stem ext Hs1 Hs2 Hdot Hstem). now split.
  - intros Hstem. unfold file_type_of, title_of.
    rewrite (splitext_dot_name stem ext Hs1 Hs2 Hdot Hstem). now split.
  - apply slug_positional.
  - unfold slug_of. rewrite slug_positional. apply length_map_chars.
Qed.

Lemma sync_derived_fields_witness :
  let row := mkBeat 1 "Night_Drive v2" "night-drive-v2" None None None None
               "Night_Drive v2.WAV" "wav" 4 in
  let dots := mkBeat 1 "..ogg" "..ogg" None None None None "..ogg" "" 4 in
  (beat_title row = "Night_Drive v2" /\ beat_file_type row = lower "WAV")
  /\ beat_slug row = map_chars slug_char (beat_title row)
  /\ (beat_title dots = "..ogg" /\ beat_file_type dots = "").
Proof.
  intros row dots.
  destruct (sync_derived_fields (steady 4)
              (FolderListing ["Night_Drive v2.WAV"]) empty_database row
              "Night_Drive v2" "WAV") as (H1 & _ & H3 & _);
    try (vm_compute; reflexivity);
    [vm_compute; now left | intros [] |].
  destruct (sync_derived_fields (steady 4) (FolderListing ["..ogg"])
              empty_database dots "." "ogg") as (_ & H2 & _);
    try (vm_compute; reflexivity);
    [vm_compute; now left | intros [] |].
  split; [apply H1; reflexivity|]. split; [exact H3|].
  apply H2. reflexivity.
Defined.

(** C7, the claim at a folder that holds [Track.wav] beside
    [track.MP3]: [track.MP3] passes the filter, but both names give the
    slug [track], the pass is rolled back, and [track.MP3] is not
    cataloged. *)
Lemma sync_track_mp3_rolled_back :
  let after := sync_beats_from_folder (steady 0)
                 (FolderListing ["Track.wav"; "track.MP3"]) empty_database in
  is_audio_file "track.MP3" = true
  /\ snd after = ErrorSyncing (IntegrityError (Unique "beats.slug"))
  /\ cataloged "track.MP3" (fst after) = false.
Proof.
  repeat split; vm_compute; reflexivity.
Qed.

(** C7, amended.  Sync considers exactly the folder entries whose name
    ends with one of [.mp3], [.wav], [.m4a], [.flac], [.ogg], the
    extension being compared without case.  Every row sync adds carries
    the name of such an entry, so [notes.txt] is never cataloged.  A
    pass that commits catalogs each such entry that was not cataloged,
    with the file type taken from its name: the extension lower-cased,
    or nothing when only dots stand before it; [track.MP3] gets file
    type [mp3].  (A pass that fails catalogs nothing.) *)
Theorem sync_extension_filter
  (c : clock) (entries : list string) (db : database) :
  let after := sync_beats_from_folder c (FolderListing entries) db in
  (forall f, is_audio_file f = true <-> has_audio_extension f)
  /\ (forall row,
        In row (beats (fst after)) -> ~ In row (beats db) ->
        In (beat_file_name row) entries
        /\ has_audio_extension (beat_file_name row)
        /\ beat_file_name row <> "notes.txt")
  /\ (forall n f,
        snd after = Synced n ->
        In f entries -> has_audio_extension f -> cataloged f db = false ->
        exists row,
          In row (beats (fst after))
          /\ beat_file_name row = f
          /\ beat_file_type row = file_type_of f)
  /\ (forall stem ext,
        In (lower ext) audio_types ->
        mem_char "/" (stem ++ "." ++ ext) = false ->
        file_type_of (stem ++ "." ++ ext)
        = if only_dots stem then "" else lower ext)
  /\ has_audio_extension "track.MP3"
  /\ file_type_of "track.MP3" = "mp3".
Proof.
  intros after. split; [exact is_audio_file_iff|].
  split; [|split; [|split; [|split]]].
  - intros row Hin Hnew.
    destruct (sync_new_row c _ db row Hin Hnew)
      as (rowid & i & f & entries' & Ef & -> & Hf & Ha & _).
    injection Ef as <-. cbn [derived_row beat_file_name].
    split; [exact Hf|]. split; [now apply is_audio_file_iff|].
    intros ->. vm_compute in Ha. discriminate Ha.
  - intros n f Hs Hf Ha Hc. apply is_audio_file_iff in Ha.
    destruct (sync_catalogs_new_name c entries db n f Hs Hf Ha Hc)
      as (rowid & i & Hrow).
    exists (derived_row rowid (c i) f). repeat split. exact Hrow.
  - intros stem ext Hext Hsep.
    rewrite mem_char_app in Hsep. apply orb_false_iff in Hsep as [Hs1 Hs2].
    change (("." ++ ext)%string) with (String "." ext) in Hs2.
    cbn [mem_char] in Hs2. apply orb_false_iff in Hs2 as [_ Hs2].
    assert (Hd : mem_char "." ext = false)
      by (rewrite <- mem_dot_lower; now apply audio_type_no_dot).
    unfold file_type_of. destruct (only_dots stem) eqn:Hdots.
    + now rewrite (splitext_dot_name stem ext Hs1 Hs2 Hd Hdots).
    + now rewrite (splitext_stem_ext stem ext Hs1 Hs2 Hd Hdots).
  - apply is_audio_file_iff. vm_compute; reflexivity.
  - vm_compute; reflexivity.
Qed.

Lemma sync_extension_filter_witness :
  let after := sync_beats_from_folder Z.of_nat
                 (FolderListing ["notes.txt"; "track.MP3"]) empty_database in
  (exists row,
     In row (beats (fst after))
     /\ beat_file_name row = "track.MP3"
     /\ beat_file_type row = file_type_of "track.MP3")
  /\ cataloged "notes.txt" (fst after) = false.
Proof.
  intros after.
  destruct (sync_extension_filter Z.of_nat ["notes.txt"; "track.MP3"]
              empty_database) as (_ & _ & H & _ & Ht & _).
  split; [|vm_compute; reflexivity].
  apply (H 1%nat "track.MP3"); try (vm_compute; reflexivity).
  - right; now left.
  - exact Ht.
Defined.

(** ** [add_beat] *)

Lemma fold_max_ge (ids : list Z) (n : Z) :
  In n ids -> n <= fold_right Z.max 0 ids.
Proof.
  induction ids as [|a l IH]; cbn; [intros []|].
  intros [->|H]; [lia|]. specialize (IH H). lia.
Qed.

(** The id [AUTOINCREMENT] hands out is not the id of any row. *)
Lemma next_rowid_fresh (ids : list Z) (seq : Z) : ~ In (next_rowid ids seq) ids.
Proof.
  intros H. apply fold_max_ge in H. unfold next_rowid in H. lia.
Qed.

(** C2, the claim at a store that already holds [x.mp3]: a second insert
    with the same file name and another slug succeeds. *)
Lemma add_beat_accepts_duplicate_file_name :
  let db := mkDatabase
              [mkBeat 1 "a" "a" None None None None "x.mp3" "mp3" 5] 1 [] 0 in
  cataloged "x.mp3" db = true
  /\ exists db',
       add_beat 9 (Some "b") (Some "b") None None None None
         (Some "x.mp3") (Some "mp3") db = (db', inr 2)
       /\ List.length (rows_named "x.mp3" db') = 2%nat.
Proof.
  split; [reflexivity|]. eexists. split; vm_compute; reflexivity.
Qed.

(** C2, amended.  When the optional integers [bpm] and [duration] fit
    64 bits and the id counter has not reached its end, the beat-insert
    operation fails with a constraint-violation signal, leaving the
    store unchanged, whenever the given slug already exists in the
    store; the file name carries no uniqueness constraint.  With title,
    slug, file name and file type given and the slug new, it appends the
    row and returns the newly assigned identity, which no row had
    before.  An integer outside 64 bits makes the insert fail with
    [OverflowError] before any constraint is looked at. *)
Theorem add_beat_slug_constraint
  (now : Z) (s : string) (description genre : option string)
  (bpm duration : option Z) (db : database) :
  (binds_int bpm = true -> binds_int duration = true ->
   next_beat_id db <= int64_max ->
   (slug_taken s (beats db) = true ->
    forall title file_name file_type,
    exists c,
      add_beat now title (Some s) description genre bpm duration
        file_name file_type db = (db, inl (IntegrityError c)))
   /\ (slug_taken s (beats db) = false ->
       forall t fn ft,
         add_beat now (Some t) (Some s) description genre bpm duration
           (Some fn) (Some ft) db
         = (mkDatabase
              (beats db
               ++ [mkBeat (next_beat_id db) t s description genre bpm duration
                     fn ft now])
              (next_beat_id db) (exclusive_inquiries db) (inquiries_seq db),
            inr (next_beat_id db))
         /\ ~ In (next_beat_id db) (map beat_id (beats db))))
  /\ (binds_int bpm = false \/ binds_int duration = false ->
      forall title slug file_name file_type,
        add_beat now title slug description genre bpm duration
          file_name file_type db = (db, inl OverflowError)).
Proof.
  split.
  - intros Hb Hd _. split.
    + intros Hs title file_name file_type.
      unfold add_beat, with_connection, bind, insert_beat.
      cbn [connect pending]. rewrite Hb, Hd. cbn [andb negb].
      destruct title, file_name, file_type; rewrite ?Hs; cbn; eauto.
    + intros Hs t fn ft. split; [|apply next_rowid_fresh].
      unfold add_beat, with_connection, bind, insert_beat.
      cbn [connect pending]. rewrite Hb, Hd, Hs. reflexivity.
  - intros Hover title slug file_name file_type.
    unfold add_beat, with_connection, bind, insert_beat.
    cbn [connect pending].
    assert (E : negb (binds_int bpm && binds_int duration) = true).
    { destruct Hover as [-> | ->]; [reflexivity|].
      now rewrite andb_false_r. }
    rewrite E. reflexivity.
Qed.

Lemma add_beat_slug_constraint_witness :
  let db := mkDatabase
              [mkBeat 1 "a" "a" None None None None "x.mp3" "mp3" 5] 1 [] 0 in
  (exists c,
     add_beat 9 (Some "A") (Some "a") None None (Some 90) None
       (Some "y.mp3") (Some "mp3") db = (db, inl (IntegrityError c)))
  /\ snd (add_beat 9 (Some "b") (Some "b") None None None None
            (Some "x.mp3") (Some "mp3") db) = inr 2
  /\ add_beat 9 (Some "b") (Some "b") None None (Some (2 ^ 63)) None
       (Some "x.mp3") (Some "mp3") db = (db, inl OverflowError).
Proof.
  intros db.
  destruct (add_beat_slug_constraint 9 "a" None None (Some 90) None db)
    as [H _].
  destruct (add_beat_slug_constraint 9 "b" None None None None db) as [H' _].
  destruct (add_beat_slug_constraint 9 "b" None None (Some (2 ^ 63)) None db)
    as [_ H''].
  split; [|split].
  - destruct H as [H _]; [reflexivity | reflexivity | |].
    + vm_compute. intros E; discriminate E.
    + apply H. reflexivity.
  - destruct H' as [_ H']; [reflexivity | reflexivity | |].
    + vm_compute. intros E; discriminate E.
    + destruct (H' eq_refl "b" "x.mp3" "mp3") as [E _]. rewrite E. reflexivity.
  - apply H''. left. reflexivity.
Defined.

(** ** [handle_get_beat] *)

(** C5, the claim at the ids [abc] and [-5]: neither is a positive
    integer; the first is answered with the internal-failure signal, the
    second with not-found; neither with the validation signal. *)
Lemma get_beat_malformed_id_is_not_a_validation_error :
  py_int "abc" = None
  /\ status (snd (handle_get_beat "abc" empty_database))
     = Some internal_failure_signal
  /\ py_int "-5" = Some (-5)
  /\ status (snd (handle_get_beat "-5" empty_database))
     = Some not_found_signal
  /\ status (snd (handle_get_beat "abc" empty_database))
     <> Some validation_signal
  /\ status (snd (handle_get_beat "-5" empty_database))
     <> Some validation_signal.
Proof.
  repeat split; try (vm_compute; reflexivity);
    vm_compute; intros H; discriminate H.
Qed.

(** C5, amended.  [getBeat] reads its id with [int()].  For every ASCII
    id string that does not read as an integer it fails with the
    internal-failure signal: there is no invalid-input signal.  For
    every id that reads as an integer the store can hold, zero and
    negative numbers included, it fails with the not-found signal when
    no row has that id and returns the row otherwise.  The store is
    never changed. *)
Theorem get_beat_id_handling (id_text : string) (db : database) :
  (is_ascii id_text = true -> py_int id_text = None ->
   handle_get_beat id_text db = (db, [send_error internal_failure_signal]))
  /\ (forall n,
        py_int id_text = Some n -> fits_int64 n = true ->
        (forall b, In b (beats db) -> beat_id b <> n) ->
        handle_get_beat id_text db = (db, [send_error not_found_signal]))
  /\ (forall n b,
        py_int id_text = Some n -> fits_int64 n = true ->
        find (fun b => beat_id b =? n) (beats db) = Some b ->
        handle_get_beat id_text db = (db, json_ok (beat_dict b))).
Proof.
  unfold handle_get_beat, handle_get_beat_try, get_beat_by_id,
    with_connection, select_beat_by_id.
  split; [|split].
  - intros _ ->. reflexivity.
  - intros n -> Hfit Hnone. cbn [connect pending]. rewrite Hfit.
    assert (E : find (fun b => beat_id b =? n) (beats db) = None).
    { apply find_none_existsb.
      destruct (existsb _ _) eqn:E; [|reflexivity].
      apply existsb_exists in E as [b [Hb Hn]].
      apply Z.eqb_eq in Hn. now apply Hnone in Hb. }
    rewrite E. reflexivity.
  - intros n b -> Hfit Hfind. cbn [connect pending]. rewrite Hfit, Hfind.
    reflexivity.
Qed.

Lemma get_beat_id_handling_witness :
  let db := mkDatabase
              [mkBeat 1 "a" "a" None None None None "a.mp3" "mp3" 5] 1 [] 0 in
  handle_get_beat "12x" db = (db, [send_error internal_failure_signal])
  /\ handle_get_beat (String (ascii_of_nat 28) "1") db
     = (db, [send_error internal_failure_signal])
  /\ handle_get_beat "0" db = (db, [send_error not_found_signal])
  /\ status (snd (handle_get_beat " 1 " db)) = Some 200.
Proof.
  intros db.
  destruct (get_beat_id_handling "12x" db) as (H1 & _ & _).
  destruct (get_beat_id_handling (String (ascii_of_nat 28) "1") db)
    as (H1' & _ & _).
  destruct (get_beat_id_handling "0" db) as (_ & H2 & _).
  destruct (get_beat_id_handling " 1 " db) as (_ & _ & H3).
  split; [apply H1; reflexivity|].
  split; [apply H1'; reflexivity|]. split.
  - apply (H2 0); try reflexivity.
    intros b [<-|[]]. cbn. lia.
  - rewrite (H3 1 (mkBeat 1 "a" "a" None None None None "a.mp3" "mp3" 5));
      reflexivity.
Defined.

(** ** [handle_inquiry_submission] *)

Section Inquiry.

Variable items : list (string * json_value).

Lemma getitem_present (field : string) (v : json_value) :
  getitem (JObject items) field = inr v -> present field items = true.
Proof.
  unfold getitem, present.
  destruct (find _ items) as [kv|] eqn:E; [|discriminate].
  intros _. destruct (existsb _ items) eqn:Ex; [reflexivity|].
  apply find_none_existsb in Ex. congruence.
Qed.

Lemma all_in_present (fields : list string) :
  all_in fields (JObject items)
  = inr (forallb (fun field => present field items) fields).
Proof.
  induction fields as [|field rest IH]; cbn; [reflexivity|].
  fold (present field items).
  destruct (present field items); [exact IH | reflexivity].
Qed.

Lemma missing_field_forallb (field : string) :
  In field required_fields -> present field items = false ->
  forallb (fun field => present field items) required_fields = false.
Proof.
  intros Hin Hp.
  destruct (forallb _ required_fields) eqn:E; [|reflexivity].
  rewrite forallb_forall in E. rewrite (E field Hin) in Hp. discriminate Hp.
Qed.

End Inquiry.

Lemma not_null_storable (column : string) (v : sql_value) :
  v <> SqlNull -> not_null column v = inr v.
Proof. destruct v; [congruence | reflexivity..]. Qed.

(** C4, the claim at a request whose [name] is the empty string: the
    four fields are present, the email passes, and the inquiry is
    stored and answered with 200, not refused. *)
Lemma inquiry_with_empty_name_is_stored :
  let request :=
    JObject [("beatId", JInt 1); ("name", JString "");
             ("email", JString "a@b.com"); ("offer", JString "500")] in
  let result := handle_inquiry_submission 7 (inr request) empty_database in
  status (snd result) = Some 200
  /\ status (snd result) <> Some validation_signal
  /\ exclusive_inquiries (fst result)
     = [mkInquiry 1 (SqlInteger 1) (SqlText "") (SqlText "a@b.com")
          (SqlText "500") "new" 7].
Proof.
  repeat split; try (vm_compute; reflexivity).
  vm_compute. intros H; discriminate H.
Qed.

(** C4, amended.  [submitInquiry] fails with a validation signal, writing
    no row, if any of [beatId], [name], [email], [offer] is missing from
    the request object, or if [email] is a string that does not contain
    both an [@] and a [.]; emptiness is not checked.  When the four
    fields are present with values the store accepts and the email
    string passes that check, it writes exactly one inquiry row with
    status [new] and returns the new identity. *)
Theorem inquiry_validation
  (now : Z) (items : list (string * json_value)) (db : database) :
  ((exists field, In field required_fields /\ present field items = false) ->
   handle_inquiry_submission now (inr (JObject items)) db
   = (db, json_bad_request "Missing required fields"))
  /\ (forall e,
        getitem (JObject items) "email" = inr (JString e) ->
        contains "@" e = false \/ contains "." e = false ->
        exists message,
          handle_inquiry_submission now (inr (JObject items)) db
          = (db, json_bad_request message))
  /\ (forall b n e o sb sn so,
        getitem (JObject items) "beatId" = inr b ->
        getitem (JObject items) "name" = inr n ->
        getitem (JObject items) "email" = inr (JString e) ->
        getitem (JObject items) "offer" = inr o ->
        contains "@" e = true -> contains "." e = true ->
        storable b sb -> storable n sn -> storable o so ->
        let rowid :=
          next_rowid (map inq_id (exclusive_inquiries db)) (inquiries_seq db) in
        handle_inquiry_submission now (inr (JObject items)) db
        = (mkDatabase (beats db) (beats_seq db)
             (exclusive_inquiries db
              ++ [mkInquiry rowid sb sn (SqlText e) so "new" now])
             rowid,
           json_ok
             (JObject
                [("success", JBool true);
                 ("inquiryId", JInt rowid);
                 ("message", JString "Inquiry submitted successfully")]))
        /\ ~ In rowid (map inq_id (exclusive_inquiries db))).
Proof.
  split; [|split].
  - intros (field & Hin & Hp).
    unfold handle_inquiry_submission, handle_inquiry_submission_try.
    rewrite all_in_present, (missing_field_forallb items field Hin Hp).
    reflexivity.
  - intros e He Hbad.
    unfold handle_inquiry_submission, handle_inquiry_submission_try.
    rewrite all_in_present.
    destruct (forallb _ required_fields); [|eexists; reflexivity].
    rewrite He. unfold email_invalid. cbn [py_in].
    destruct Hbad as [Hat|Hdot].
    + rewrite Hat. eexists; reflexivity.
    + rewrite Hdot. destruct (contains "@" e); eexists; reflexivity.
  - intros b n e o sb sn so Hb Hn He Ho Hat Hdot [Bb Nb] [Bn Nn] [Bo No] rowid.
    split; [|apply next_rowid_fresh].
    unfold handle_inquiry_submission, handle_inquiry_submission_try.
    rewrite all_in_present.
    assert (Hall : forallb (fun field => present field items) required_fields
                   = true).
    { cbn [forallb required_fields].
      rewrite (getitem_present _ _ _ Hb), (getitem_present _ _ _ Hn),
        (getitem_present _ _ _ He), (getitem_present _ _ _ Ho).
      reflexivity. }
    rewrite Hall, He. unfold email_invalid. cbn [py_in].
    rewrite Hat, Hdot. cbn [negb]. rewrite Hb, Hn, Ho.
    unfold save_inquiry, with_connection, bind, insert_inquiry.
    cbn [connect pending bind_param]. rewrite Bb, Bn, Bo.
    rewrite (not_null_storable _ _ Nb), (not_null_storable _ _ Nn),
      (not_null_storable _ _ No).
    reflexivity.
Qed.

Lemma inquiry_validation_witness :
  let ok :=
    [("beatId", JInt 3); ("name", JString "Ada");
     ("email", JString "a@b.com"); ("offer", JString "500")] in
  let bad_email :=
    [("beatId", JInt 3); ("name", JString "Ada");
     ("email", JString "not-an-email"); ("offer", JString "500")] in
  let no_offer :=
    [("beatId", JInt 3); ("name", JString "Ada"); ("email", JString "a@b.com")] in
  handle_inquiry_submission 7 (inr (JObject no_offer)) empty_database
  = (empty_database, json_bad_request "Missing required fields")
  /\ (exists message,
        handle_inquiry_submission 7 (inr (JObject bad_email)) empty_database
        = (empty_database, json_bad_request message))
  /\ exclusive_inquiries
       (fst (handle_inquiry_submission 7 (inr (JObject ok)) empty_database))
     = [mkInquiry 1 (SqlInteger 3) (SqlText "Ada") (SqlText "a@b.com")
          (SqlText "500") "new" 7].
Proof.
  intros ok bad_email no_offer.
  destruct (inquiry_validation 7 no_offer empty_database) as (H1 & _ & _).
  destruct (inquiry_validation 7 bad_email empty_database) as (_ & H2 & _).
  destruct (inquiry_validation 7 ok empty_database) as (_ & _ & H3).
  split; [|split].
  - apply H1. exists "offer". split; [|reflexivity].
    right; right; right; now left.
  - apply (H2 "not-an-email"); [reflexivity|]. left; reflexivity.
  - destruct (H3 (JInt 3) (JString "Ada") "a@b.com" (JString "500")
                (SqlInteger 3) (SqlText "Ada") (SqlText "500")) as [E _];
      [reflexivity | reflexivity | reflexivity | reflexivity
      | reflexivity | reflexivity
      | split; [reflexivity | discriminate]
      | split; [reflexivity | discriminate]
      | split; [reflexivity | discriminate]
      | rewrite E; reflexivity].
Defined.

(** ** [handle_audio_stream] *)

Section AudioGuard.

Variable BEATS_FOLDER cwd : string.
Variable fs : filesystem.
Variable guess_type : string -> option string.

(** What the guard does check: a path whose absolute form does not
    start, as a string, with the absolute form of the folder is answered
    403 and nothing is written. *)
Lemma audio_guard_rejects_other_prefix (file_name : string) :
  startswith (abspath cwd BEATS_FOLDER)
    (abspath cwd (PosixPath.join BEATS_FOLDER file_name)) = false ->
  handle_audio_stream BEATS_FOLDER cwd fs guess_type file_name
  = [send_error forbidden_signal].
Proof.
  intros H. unfold handle_audio_stream. rewrite H. reflexivity.
Qed.

End AudioGuard.

Example audio_guard_rejects_etc_passwd :
  handle_audio_stream "/srv/beats" "/" (fun _ => Some (RegularFile "root:x:0:0"))
    (fun _ => None) "../../etc/passwd"
  = [send_error forbidden_signal].
Proof. apply audio_guard_rejects_other_prefix. vm_compute; reflexivity. Qed.

(** C8, the code at a name that resolves into a sibling folder whose
    name extends the name of the audio folder: the path lies outside the
    audio folder, and the file is served. *)
Theorem audio_guard_admits_sibling_folder :
  let fs := fun p =>
    if String.eqb p "/srv/beats/../beats-private/master.wav"
    then Some (RegularFile "RIFF") else None in
  let file_name := "../beats-private/master.wav" in
  let r := handle_audio_stream "/srv/beats" "/" fs (fun _ => None) file_name in
  abspath "/" (PosixPath.join "/srv/beats" file_name)
  = "/srv/beats-private/master.wav"
  /\ resolves_inside "/" "/srv/beats" (PosixPath.join "/srv/beats" file_name)
     = false
  /\ status r = Some 200
  /\ status r <> Some forbidden_signal
  /\ written r = [RawBody "RIFF"].
Proof.
  repeat split; try (vm_compute; reflexivity).
  vm_compute. intros H; discriminate H.
Qed.

(** * Further properties of the code *)

(** ** Store consistency *)

Section Consistency.

Lemma NoDup_snoc {A} (l : list A) (x : A) :
  NoDup l -> ~ In x l -> NoDup (l ++ [x]).
Proof.
  intros Hl Hx. apply (Permutation_NoDup (l := x :: l)).
  - apply Permutation_cons_append.
  - now constructor.
Qed.

Lemma slug_not_taken (s : string) (rows : list Beat) :
  slug_taken s rows = false -> ~ In s (map beat_slug rows).
Proof.
  unfold slug_taken. intros H Hin. apply in_map_iff in Hin as [b [Hb Hin]].
  assert (E : existsb (fun b => String.eqb (beat_slug b) s) rows = true).
  { apply existsb_exists. exists b. split; [exact Hin|].
    now apply String.eqb_eq. }
  congruence.
Qed.

Lemma with_row_consistent (conn : connection) (row : Beat) :
  consistent (pending conn) ->
  slug_taken (beat_slug row) (beats (pending conn)) = false ->
  beat_id row = next_beat_id (pending conn) ->
  consistent (pending (with_row conn row)).
Proof.
  intros (Hid & Hslug & Hinq) Hs Hrow. unfold consistent, with_row; cbn.
  rewrite !map_app; cbn. repeat split.
  - apply NoDup_snoc; [exact Hid|]. rewrite Hrow. apply next_rowid_fresh.
  - apply NoDup_snoc; [exact Hslug|]. now apply slug_not_taken.
  - exact Hinq.
Qed.

Lemma sync_loop_consistent (files : list string) :
  forall c conn conn' r,
    sync_loop c files conn = (conn', r) ->
    consistent (pending conn) -> consistent (pending conn').
Proof.
  induction files as [|f rest IH]; intros c conn conn' r H Hc.
  - cbn in H. now injection H as <- _.
  - rewrite sync_loop_cons in H.
    destruct (cataloged f (pending conn)); [now apply (IH _ _ _ _ H)|].
    destruct (slug_taken _ _) eqn:Es; [now injection H as <- _|].
    apply (IH _ _ _ _ H). now apply with_row_consistent.
Qed.

End Consistency.

(** X1. Sync keeps the store consistent: whatever the folder holds and
    however the pass ends, row ids stay distinct in both tables and
    slugs stay distinct. *)
Theorem sync_keeps_store_consistent
  (c : clock) (folder : folder_state) (db : database) :
  consistent db ->
  consistent (fst (sync_beats_from_folder c folder db)).
Proof.
  intros Hc.
  destruct (sync_cases c folder db)
    as [[_ E] | [[e E] | (entries & conn' & _ & Hloop & E)]];
    rewrite E; cbn [fst]; try exact Hc.
  now apply (sync_loop_consistent _ _ _ _ _ Hloop).
Qed.

Lemma sync_keeps_store_consistent_witness :
  consistent
    (fst (sync_beats_from_folder (steady 4)
            (FolderListing ["b.wav"; "A.mp3"; "b.wav"])
            (mkDatabase
               [mkBeat 7 "a" "a" None None None None "a.mp3" "mp3" 1] 3 [] 0))).
Proof.
  apply sync_keeps_store_consistent.
  repeat split; cbn; repeat constructor; intros [].
Defined.

(** X2. [add_beat] keeps the store consistent, whether the insert
    succeeds or is refused; and an insert that is refused changes
    nothing. *)
Theorem add_beat_keeps_store_consistent
  (now : Z) (title slug description genre : option string)
  (bpm duration : option Z) (file_name file_type : option string)
  (db : database) :
  consistent db ->
  let result :=
    add_beat now title slug description genre bpm duration file_name
      file_type db in
  consistent (fst result)
  /\ (forall e, snd result = inl e -> fst result = db).
Proof.
  intros Hc result. subst result.
  unfold add_beat, with_connection, bind, insert_beat. cbn [connect pending].
  destruct (negb (binds_int bpm && binds_int duration));
    [split; [exact Hc | reflexivity]|].
  destruct title as [t|], slug as [s|], file_name as [fn|], file_type as [ft|];
    cbn; try (split; [exact Hc | reflexivity]).
  destruct (slug_taken s (beats db)) eqn:Es; cbn;
    [split; [exact Hc | reflexivity]|].
  split; [|intros e H; discriminate H].
  destruct Hc as (Hid & Hslug & Hinq). unfold consistent; cbn.
  rewrite !map_app; cbn. repeat split.
  - apply NoDup_snoc; [exact Hid | apply next_rowid_fresh].
  - apply NoDup_snoc; [exact Hslug | now apply slug_not_taken].
  - exact Hinq.
Qed.

Lemma add_beat_keeps_store_consistent_witness :
  let db := mkDatabase
              [mkBeat 1 "a" "a" None None None None "x.mp3" "mp3" 5] 1 [] 0 in
  consistent
    (fst (add_beat 9 (Some "b") (Some "b") None None (Some 90) None
            (Some "x.mp3") (Some "mp3") db))
  /\ fst (add_beat 9 (Some "b") (Some "a") None None None None
            (Some "y.mp3") (Some "mp3") db) = db.
Proof.
  intros db.
  assert (Hc : consistent db)
    by (repeat split; cbn; repeat constructor; intros []).
  split.
  - apply (add_beat_keeps_store_consistent 9 (Some "b") (Some "b") None None
             (Some 90) None (Some "x.mp3") (Some "mp3") db Hc).
  - destruct (add_beat_keeps_store_consistent 9 (Some "b") (Some "a") None
                None None None (Some "y.mp3") (Some "mp3") db Hc) as [_ H].
    apply (H (IntegrityError (Unique "beats.slug"))). reflexivity.
Defined.

(** ** When a pass commits *)

Section Collision.

Lemma cataloged_false_with_row (f : string) (conn : connection) (row : Beat) :
  cataloged f (pending (with_row conn row)) = false ->
  cataloged f (pending conn) = false /\ beat_file_name row <> f.
Proof.
  rewrite cataloged_with_row. intros H.
  apply orb_false_iff in H as [H1 H2]. split; [exact H1|].
  now apply String.eqb_neq.
Qed.

Lemma sync_loop_no_collision (files : list string) :
  forall c conn,
    no_collision files (pending conn) ->
    exists conn', sync_loop c files conn = (conn', inr tt).
Proof.
  induction files as [|g rest IH]; intros c conn [Hfree Hone];
    [now exists conn|].
  rewrite sync_loop_cons.
  destruct (cataloged g (pending conn)) eqn:Ec.
  - apply IH. split.
    + intros f Hf. apply Hfree. now right.
    + intros f h Hf Hh. apply Hone; now right.
  - rewrite (Hfree g (or_introl eq_refl) Ec).
    apply IH. split.
    + intros f Hf Hc.
      apply cataloged_false_with_row in Hc as [Hc Hne].
      cbn [derived_row beat_file_name] in Hne.
      rewrite slug_taken_with_row. cbn [derived_row beat_slug].
      rewrite (Hfree f (or_intror Hf) Hc). cbn [orb].
      apply String.eqb_neq. intros Hs. apply Hne.
      apply Hone; auto; [now left | now right].
    + intros f h Hf Hh Hcf Hch.
      apply cataloged_false_with_row in Hcf as [Hcf _].
      apply cataloged_false_with_row in Hch as [Hch _].
      apply Hone; auto; now right.
Qed.

Lemma sync_loop_success_no_collision (files : list string) (c : clock)
  (conn conn' : connection) :
  sync_loop c files conn = (conn', inr tt) ->
  no_collision files (pending conn).
Proof.
  intros H. split.
  - intros f Hf Hc.
    destruct (slug_taken (slug_of f) (beats (pending conn))) eqn:Es;
      [|reflexivity].
    destruct (sync_loop_slug_conflict files c conn f Hf Hc Es) as [k E].
    rewrite E in H. discriminate H.
  - intros f g Hf Hg Hcf Hcg Hs.
    destruct (string_dec f g) as [E|N]; [exact E|].
    destruct (sync_loop_twin_slugs files c conn f g Hf Hg N Hcf Hcg Hs)
      as [k E].
    rewrite E in H. discriminate H.
Qed.

Lemma sync_loop_error_is_slug_conflict (files : list string) :
  forall c conn conn' e,
    sync_loop c files conn = (conn', inl e) ->
    e = IntegrityError (Unique "beats.slug").
Proof.
  induction files as [|g rest IH]; intros c conn conn' e H;
    [discriminate H|].
  rewrite sync_loop_cons in H.
  destruct (cataloged g (pending conn)); [now apply (IH _ _ _ _ H)|].
  destruct (slug_taken _ _);
    [now injection H as _ <- | now apply (IH _ _ _ _ H)].
Qed.

End Collision.

(** X3. A pass over a folder that can be listed, whose audio names are
    ASCII and for whose inserts the id counter has room, commits exactly
    when no insert can conflict: every audio name that is not cataloged
    has a slug the store does not hold, and no two such names share a
    slug.  Otherwise the pass ends on the slug conflict and changes
    nothing. *)
Theorem sync_commits_iff_no_collision
  (c : clock) (entries : list string) (db : database) :
  (forall f, In f entries -> is_audio_file f = true -> is_ascii f = true) ->
  next_beat_id db + Z.of_nat (List.length entries) <= int64_max ->
  let after := sync_beats_from_folder c (FolderListing entries) db in
  (snd after = Synced (List.length (filter is_audio_file entries))
   <-> no_collision (filter is_audio_file entries) db)
  /\ (snd after = Synced (List.length (filter is_audio_file entries))
      \/ after = (db, ErrorSyncing (IntegrityError (Unique "beats.slug")))).
Proof.
  intros _ _ after. subst after.
  destruct (sync_loop c (filter is_audio_file entries) (connect db))
    as [conn' [e|[]]] eqn:Hloop.
  - rewrite (sync_listing_failed _ _ _ _ _ Hloop). cbn [snd].
    assert (Hno : ~ no_collision (filter is_audio_file entries) db).
    { intros Hn.
      destruct (sync_loop_no_collision _ c (connect db) Hn) as [k E].
      rewrite E in Hloop. discriminate Hloop. }
    split; [split; [intros H; discriminate H | intros H; contradiction]|].
    right. now rewrite (sync_loop_error_is_slug_conflict _ _ _ _ _ Hloop).
  - rewrite (sync_listing_committed _ _ _ _ Hloop). cbn [snd].
    split; [|now left]. split; [intros _|reflexivity].
    apply (sync_loop_success_no_collision _ c (connect db) conn' Hloop).
Qed.

Lemma sync_commits_iff_no_collision_witness :
  snd (sync_beats_from_folder Z.of_nat
         (FolderListing ["a b.mp3"; "c.txt"; "d.ogg"]) empty_database)
  = Synced 2
  /\ ~ no_collision (filter is_audio_file ["a b.mp3"; "a_b.wav"]) empty_database.
Proof.
  destruct (sync_commits_iff_no_collision Z.of_nat
              ["a b.mp3"; "c.txt"; "d.ogg"] empty_database) as [[_ H1] _].
  { intros f Hf _. cbn [In] in Hf.
    repeat (destruct Hf as [<-|Hf]; [reflexivity|]). contradiction. }
  { vm_compute. intros E; discriminate E. }
  destruct (sync_commits_iff_no_collision Z.of_nat ["a b.mp3"; "a_b.wav"]
              empty_database) as [[_ H2] _].
  { intros f Hf _. cbn [In] in Hf.
    repeat (destruct Hf as [<-|Hf]; [reflexivity|]). contradiction. }
  { vm_compute. intros E; discriminate E. }
  split.
  - apply H1. split.
    + intros f _ _. reflexivity.
    + intros f g Hf Hg _ _ Hs. cbn in Hf, Hg.
      destruct Hf as [<-|[<-|[]]]; destruct Hg as [<-|[<-|[]]];
        first [reflexivity | vm_compute in Hs; discriminate Hs].
  - intros Hn. apply H2 in Hn. vm_compute in Hn. discriminate Hn.
Defined.

(** X4. The order in which the folder lists its entries does not
    matter: two listings with the same entries end alike (both commit
    or both fail), and after them every file name has the same number
    of rows. *)
Theorem sync_listing_order_irrelevant
  (c : clock) (entries entries' : list string) (db : database) :
  Permutation entries entries' ->
  let after := sync_beats_from_folder c (FolderListing entries) db in
  let after' := sync_beats_from_folder c (FolderListing entries') db in
  snd after = snd after'
  /\ forall f,
       List.length (rows_named f (fst after))
       = List.length (rows_named f (fst after')).
Proof.
  intros Hp after after'.
  assert (Hin : forall f, In f (filter is_audio_file entries)
                          <-> In f (filter is_audio_file entries')).
  { intros f. rewrite !filter_In. split; intros [H1 H2]; split; auto.
    - now apply (Permutation_in _ Hp).
    - now apply (Permutation_in _ (Permutation_sym Hp)). }
  assert (Hlen : List.length (filter is_audio_file entries)
                 = List.length (filter is_audio_file entries')).
  { clear Hin after after'. induction Hp; cbn [filter].
    - reflexivity.
    - destruct (is_audio_file x); cbn [List.length]; congruence.
    - destruct (is_audio_file x), (is_audio_file y); reflexivity.
    - congruence. }
  assert (Hcol : no_collision (filter is_audio_file entries) db
                 <-> no_collision (filter is_audio_file entries') db).
  { unfold no_collision. split; intros [H1 H2]; split.
    - intros f Hf. apply H1. now apply Hin.
    - intros f g Hf Hg. apply H2; now apply Hin.
    - intros f Hf. apply H1. now apply Hin.
    - intros f g Hf Hg. apply H2; now apply Hin. }
  subst after after'.
  destruct (sync_loop c (filter is_audio_file entries) (connect db))
    as [c1 [e1|[]]] eqn:L1;
    destruct (sync_loop c (filter is_audio_file entries') (connect db))
      as [c2 [e2|[]]] eqn:L2.
  - rewrite (sync_listing_failed _ _ _ _ _ L1),
      (sync_listing_failed _ _ _ _ _ L2). cbn [fst snd].
    rewrite (sync_loop_error_is_slug_conflict _ _ _ _ _ L1),
      (sync_loop_error_is_slug_conflict _ _ _ _ _ L2). now split.
  - exfalso.
    apply sync_loop_success_no_collision in L2. apply Hcol in L2.
    destruct (sync_loop_no_collision _ c (connect db) L2) as [k E].
    rewrite E in L1. discriminate L1.
  - exfalso.
    apply sync_loop_success_no_collision in L1. apply Hcol in L1.
    destruct (sync_loop_no_collision _ c (connect db) L1) as [k E].
    rewrite E in L2. discriminate L2.
  - rewrite (sync_listing_committed _ _ _ _ L1),
      (sync_listing_committed _ _ _ _ L2). cbn [fst snd].
    split; [now rewrite Hlen|]. intros f.
    destruct (sync_loop_counts _ _ _ _ L1 f) as [A1 B1].
    destruct (sync_loop_counts _ _ _ _ L2 f) as [A2 B2].
    destruct (in_dec string_dec f (filter is_audio_file entries)) as [Hf|Hf].
    + rewrite (A1 Hf), (A2 (proj1 (Hin f) Hf)). reflexivity.
    + rewrite (B1 Hf). rewrite B2; [reflexivity|].
      intros H. apply Hf. now apply Hin.
Qed.

Lemma sync_listing_order_irrelevant_witness :
  snd (sync_beats_from_folder (steady 2) (FolderListing ["a.mp3"; "b.wav"]) empty_database)
  = snd (sync_beats_from_folder (steady 2) (FolderListing ["b.wav"; "a.mp3"]) empty_database).
Proof.
  apply (sync_listing_order_irrelevant (steady 2) ["a.mp3"; "b.wav"] ["b.wav"; "a.mp3"]
           empty_database).
  apply perm_swap.
Defined.

(** ** What sync writes *)

(** X5. Sync writes nothing but plain beat rows: the inquiry table and
    its counter are untouched, and every row it adds has no description,
    genre, bpm or duration and carries a time the clock showed during
    the pass (each insert reads the time for itself). *)
Theorem sync_adds_only_plain_rows
  (c : clock) (folder : folder_state) (db : database) :
  let db' := fst (sync_beats_from_folder c folder db) in
  exclusive_inquiries db' = exclusive_inquiries db
  /\ inquiries_seq db' = inquiries_seq db
  /\ forall row,
       In row (beats db') -> ~ In row (beats db) ->
       beat_description row = None /\ beat_genre row = None
       /\ beat_bpm row = None /\ beat_duration row = None
       /\ exists i, beat_created_at row = c i.
Proof.
  intros db'. subst db'. split; [|split].
  - destruct (sync_cases c folder db)
      as [[_ E] | [[e E] | (entries & conn' & _ & Hloop & E)]];
      rewrite E; cbn [fst]; try reflexivity.
    now apply sync_loop_appends in Hloop as (_ & H & _).
  - destruct (sync_cases c folder db)
      as [[_ E] | [[e E] | (entries & conn' & _ & Hloop & E)]];
      rewrite E; cbn [fst]; try reflexivity.
    now apply sync_loop_appends in Hloop as (_ & _ & H & _).
  - intros row Hin Hnew.
    destruct (sync_new_row c folder db row Hin Hnew)
      as (rowid & i & f & entries & _ & -> & _).
    repeat split. now exists i.
Qed.

Lemma sync_adds_only_plain_rows_witness :
  let db := mkDatabase [] 0
              [mkInquiry 1 (SqlInteger 9) (SqlText "n") (SqlText "e@x.y")
                 (SqlText "1") "new" 3] 1 in
  let c := fun i => 100 + Z.of_nat i in
  let db' := fst (sync_beats_from_folder c (FolderListing ["a.mp3"; "b.wav"]) db) in
  exclusive_inquiries db' = exclusive_inquiries db
  /\ beats db'
     = [mkBeat 1 "a" "a" None None None None "a.mp3" "mp3" 100;
        mkBeat 2 "b" "b" None None None None "b.wav" "wav" 101]
  /\ exists i,
       beat_created_at
         (mkBeat 2 "b" "b" None None None None "b.wav" "wav" 101) = c i.
Proof.
  intros db c db'.
  destruct (sync_adds_only_plain_rows c (FolderListing ["a.mp3"; "b.wav"]) db)
    as (H1 & _ & H3).
  split; [exact H1|]. split; [vm_compute; reflexivity|].
  apply (H3 (mkBeat 2 "b" "b" None None None None "b.wav" "wav" 101)).
  - vm_compute. right; now left.
  - intros [].
Defined.

(** ** Insert, lookup and listing *)

Lemma find_snoc_fresh {A} (p : A -> bool) (l : list A) (x : A) :
  (forall a, In a l -> p a = false) ->
  find p (l ++ [x]) = if p x then Some x else None.
Proof.
  induction l as [|a l IH]; intros H; cbn; [reflexivity|].
  rewrite (H a (or_introl eq_refl)). apply IH.
  intros b Hb. apply H. now right.
Qed.

(** X6. Insert then lookup: the identity [add_beat] returns leads
    [get_beat_by_id] to a row equal, field by field, to what was
    inserted, with the time of the insert; the lookup changes nothing. *)
Theorem add_beat_then_get_beat_by_id
  (now : Z) (t s : string) (description genre : option string)
  (bpm duration : option Z) (fn ft : string) (db db' : database) (rowid : Z) :
  add_beat now (Some t) (Some s) description genre bpm duration
    (Some fn) (Some ft) db = (db', inr rowid) ->
  fits_int64 rowid = true ->
  get_beat_by_id rowid db'
  = (db', inr (Some (mkBeat rowid t s description genre bpm duration fn ft now))).
Proof.
  unfold add_beat, with_connection, bind, insert_beat. cbn [connect pending].
  destruct (negb (binds_int bpm && binds_int duration));
    [intros H; discriminate H|].
  destruct (slug_taken s (beats db)); cbn; [intros H; discriminate H|].
  intros H Hfit. injection H as <- <-.
  unfold get_beat_by_id, with_connection, select_beat_by_id.
  cbn [connect pending beats]. rewrite Hfit. cbn.
  rewrite find_snoc_fresh.
  - cbn. now rewrite Z.eqb_refl.
  - intros b Hb. apply Z.eqb_neq. intros E.
    apply (next_rowid_fresh (map beat_id (beats db)) (beats_seq db)).
    rewrite <- E. now apply in_map.
Qed.

Lemma add_beat_then_get_beat_by_id_witness :
  let db := mkDatabase
              [mkBeat 4 "a" "a" None None None None "x.mp3" "mp3" 5] 4 [] 0 in
  exists db',
    get_beat_by_id 5 db'
    = (db', inr (Some (mkBeat 5 "B" "b" (Some "dark") None (Some 140) None
                         "b.wav" "wav" 9))).
Proof.
  intros db. eexists.
  apply (add_beat_then_get_beat_by_id 9 "B" "b" (Some "dark") None (Some 140)
           None "b.wav" "wav" db); reflexivity.
Defined.

Lemma insert_desc_sorted (b : Beat) (rows : list Beat) :
  StronglySorted newer_or_same rows ->
  StronglySorted newer_or_same (insert_desc b rows).
Proof.
  induction rows as [|x rest IH]; intros Hs; cbn.
  - constructor; constructor.
  - apply StronglySorted_inv in Hs as [Hrest Hx].
    destruct (beat_created_at x <=? beat_created_at b) eqn:E.
    + apply Z.leb_le in E. constructor.
      * now constructor.
      * constructor; [exact E|].
        eapply Forall_impl; [|exact Hx]. unfold newer_or_same. intros; lia.
    + apply Z.leb_gt in E. constructor; [now apply IH|].
      apply (Permutation_Forall (Permutation_sym (insert_desc_perm b rest))).
      constructor; [unfold newer_or_same; lia | exact Hx].
Qed.

(** X7. The listing comes newest first: the rows [get_all_beats] returns
    are in non-increasing order of creation time. *)
Theorem get_all_beats_newest_first
  (c : clock) (folder : folder_state) (db : database) :
  exists rows,
    snd (get_all_beats c folder db) = inr rows
    /\ StronglySorted newer_or_same rows.
Proof.
  unfold get_all_beats.
  destruct (sync_beats_from_folder c folder db) as [db' log].
  exists (order_by_created_at_desc (beats db')). split; [reflexivity|].
  unfold order_by_created_at_desc.
  induction (beats db') as [|b rest IH]; cbn; [constructor|].
  now apply insert_desc_sorted.
Qed.

Lemma handle_get_beat_keeps_store (id_text : string) (db : database) :
  fst (handle_get_beat id_text db) = db.
Proof.
  unfold handle_get_beat, handle_get_beat_try, get_beat_by_id,
    with_connection, select_beat_by_id.
  destruct (py_int id_text) as [n|]; [|reflexivity]. cbn [connect pending].
  destruct (fits_int64 n); [|reflexivity].
  destruct (find _ (beats db)); reflexivity.
Qed.

(** X8. [handle_get_beat] only reads: it never changes the store, it
    answers 200, 404 or 500 and nothing else, and when it answers 200
    the body is the row of the store whose id the text reads as. *)
Theorem get_beat_only_reads (id_text : string) (db : database) :
  let result := handle_get_beat id_text db in
  fst result = db
  /\ (status (snd result) = Some 200
      \/ snd result = [send_error 404] \/ snd result = [send_error 500])
  /\ (status (snd result) = Some 200 ->
      exists b,
        In b (beats db) /\ py_int id_text = Some (beat_id b)
        /\ snd result = json_ok (beat_dict b)).
Proof.
  intros result. subst result.
  unfold handle_get_beat, handle_get_beat_try, get_beat_by_id,
    with_connection, select_beat_by_id.
  destruct (py_int id_text) as [n|]; cbn [connect pending].
  2:{ cbn. repeat split; auto. intros H; discriminate H. }
  destruct (fits_int64 n).
  2:{ cbn. repeat split; auto. intros H; discriminate H. }
  destruct (find (fun b => beat_id b =? n) (beats db)) as [b|] eqn:Ef; cbn.
  - apply find_some in Ef as [Hin Hn]. apply Z.eqb_eq in Hn.
    repeat split; auto. intros _. exists b. subst n. repeat split; auto.
  - repeat split; auto. intros H; discriminate H.
Qed.

Lemma get_beat_only_reads_witness :
  let db := mkDatabase
              [mkBeat 1 "a" "a" None None None None "a.mp3" "mp3" 5] 1 [] 0 in
  exists b,
    In b (beats db) /\ py_int "+1" = Some (beat_id b)
    /\ snd (handle_get_beat "+1" db) = json_ok (beat_dict b).
Proof.
  intros db.
  destruct (get_beat_only_reads "+1" db) as (_ & _ & H).
  apply H. reflexivity.
Defined.

(** ** Every inquiry request *)

Section InquiryOutcome.

Variable now : Z.

(** [save_inquiry] either raises and changes nothing or appends one row
    with the next id, status [new] and the time of the call. *)
Lemma save_inquiry_cases (b n e o : json_value) (db : database) :
  (exists x, save_inquiry now b n e o db = (db, inl x))
  \/ (exists row,
        save_inquiry now b n e o db
        = (mkDatabase (beats db) (beats_seq db)
             (exclusive_inquiries db ++ [row]) (inq_id row),
           inr (inq_id row))
        /\ inq_id row
           = next_rowid (map inq_id (exclusive_inquiries db)) (inquiries_seq db)
        /\ inq_status row = "new"
        /\ inq_created_at row = now).
Proof.
  unfold save_inquiry, with_connection, bind, insert_inquiry.
  cbn [connect pending].
  destruct (bind_param b) as [x|sb]; [left; eexists; reflexivity|].
  destruct (bind_param n) as [x|sn]; [left; eexists; reflexivity|].
  destruct (bind_param e) as [x|se]; [left; eexists; reflexivity|].
  destruct (bind_param o) as [x|so]; [left; eexists; reflexivity|].
  destruct (not_null "exclusive_inquiries.beat_id" sb) as [x|b'];
    [left; eexists; reflexivity|].
  destruct (not_null "exclusive_inquiries.name" sn) as [x|n'];
    [left; eexists; reflexivity|].
  destruct (not_null "exclusive_inquiries.email" se) as [x|e'];
    [left; eexists; reflexivity|].
  destruct (not_null "exclusive_inquiries.offer" so) as [x|o'];
    [left; eexists; reflexivity|].
  right.
  exists (mkInquiry
            (next_rowid (map inq_id (exclusive_inquiries db)) (inquiries_seq db))
            b' n' e' o' "new" now).
  repeat split.
Qed.

End InquiryOutcome.

(** X9. Whatever the request body is, [handle_inquiry_submission]
    answers 200, 400 or 500.  Unless it answers 200 the store is
    unchanged.  When it answers 200 it has appended exactly one inquiry
    row, with a new id, status [new] and the time of the call, and has
    left the beats alone. *)
Theorem inquiry_writes_only_on_success
  (now : Z) (loaded : exn + json_value) (db : database) :
  let result := handle_inquiry_submission now loaded db in
  ((status (snd result) = Some 400 \/ status (snd result) = Some 500)
   /\ fst result = db)
  \/ (status (snd result) = Some 200
      /\ beats (fst result) = beats db
      /\ beats_seq (fst result) = beats_seq db
      /\ exists row,
           exclusive_inquiries (fst result) = (exclusive_inquiries db ++ [row])%list
           /\ ~ In (inq_id row) (map inq_id (exclusive_inquiries db))
           /\ inq_status row = "new"
           /\ inq_created_at row = now).
Proof.
  intros result. subst result.
  unfold handle_inquiry_submission, handle_inquiry_submission_try.
  destruct loaded as [x|data].
  { left. destruct x; cbn; auto. }
  destruct (all_in required_fields data) as [x|[|]].
  { left. destruct x; cbn; auto. }
  2:{ left. cbn; auto. }
  destruct (getitem data "email") as [x|email].
  { left. destruct x; cbn; auto. }
  destruct (email_invalid email) as [x|[|]].
  { left. destruct x; cbn; auto. }
  { left. cbn; auto. }
  destruct (getitem data "beatId") as [x|b].
  { left. destruct x; cbn; auto. }
  destruct (getitem data "name") as [x|n].
  { left. destruct x; cbn; auto. }
  destruct (getitem data "offer") as [x|o].
  { left. destruct x; cbn; auto. }
  destruct (save_inquiry_cases now b n email o db)
    as [[x E] | (row & E & Hid & Hst & Ht)]; rewrite E.
  { left. destruct x; cbn; auto. }
  right. cbn. repeat split. exists row. repeat split; auto.
  rewrite Hid. apply next_rowid_fresh.
Qed.

Lemma inquiry_writes_only_on_success_witness :
  let request :=
    JObject [("beatId", JString "7"); ("name", JNull);
             ("email", JString "a@b.c"); ("offer", JInt 3)] in
  fst (handle_inquiry_submission 7 (inr request) empty_database)
  = empty_database.
Proof.
  intros request.
  destruct (inquiry_writes_only_on_success 7 (inr request) empty_database)
    as [[_ H] | (H & _)]; [exact H | vm_compute in H; discriminate H].
Defined.

(** X10. [handle_inquiry_submission] keeps the store consistent,
    whatever the request body is. *)
Theorem inquiry_keeps_store_consistent
  (now : Z) (loaded : exn + json_value) (db : database) :
  consistent db ->
  consistent (fst (handle_inquiry_submission now loaded db)).
Proof.
  intros (Hid & Hslug & Hinq).
  unfold handle_inquiry_submission, handle_inquiry_submission_try.
  assert (Hc : consistent db) by (repeat split; assumption).
  destruct loaded as [x|data]; [destruct x; exact Hc|].
  destruct (all_in required_fields data) as [x|[|]];
    [destruct x; exact Hc | | exact Hc].
  destruct (getitem data "email") as [x|email]; [destruct x; exact Hc|].
  destruct (email_invalid email) as [x|[|]];
    [destruct x; exact Hc | exact Hc |].
  destruct (getitem data "beatId") as [x|b]; [destruct x; exact Hc|].
  destruct (getitem data "name") as [x|n]; [destruct x; exact Hc|].
  destruct (getitem data "offer") as [x|o]; [destruct x; exact Hc|].
  destruct (save_inquiry_cases now b n email o db)
    as [[x E] | (row & E & Hrow & _)]; rewrite E;
    [destruct x; exact Hc|].
  cbn [fst]. unfold consistent; cbn. repeat split; auto.
  rewrite map_app; cbn. apply NoDup_snoc; [exact Hinq|].
  rewrite Hrow. apply next_rowid_fresh.
Qed.

Lemma inquiry_keeps_store_consistent_witness :
  consistent
    (fst (handle_inquiry_submission 7
            (inr (JObject [("beatId", JInt 1); ("name", JString "Ada");
                           ("email", JString "a@b.com"); ("offer", JString "5")]))
            (mkDatabase [] 0
               [mkInquiry 3 (SqlInteger 1) (SqlText "n") (SqlText "e@x.y")
                  (SqlText "1") "new" 3] 1))).
Proof.
  apply inquiry_keeps_store_consistent.
  repeat split; cbn; repeat constructor; intros [].
Defined.

(** ** Paths of plain file names *)

Section PlainNames.

Lemma split_nonempty (sep : ascii) (s : string) : split sep s <> [].
Proof.
  induction s as [|c r IH]; cbn; [discriminate|].
  destruct (Ascii.eqb c sep); [discriminate|].
  destruct (split sep r); [contradiction | discriminate].
Qed.

Lemma split_app_sep (sep : ascii) (a b : string) :
  split sep (a ++ String sep b) = (split sep a ++ split sep b)%list.
Proof.
  induction a as [|c r IH]; cbn.
  - now rewrite Ascii.eqb_refl.
  - destruct (Ascii.eqb c sep); [now rewrite IH|].
    rewrite IH. pose proof (split_nonempty sep r) as Hne.
    destruct (split sep r); [contradiction | reflexivity].
Qed.

Lemma split_no_sep (sep : ascii) (s : string) :
  mem_char sep s = false -> split sep s = [s].
Proof.
  induction s as [|c r IH]; cbn; [reflexivity|].
  intros H. apply orb_false_iff in H as [Hc Hr].
  rewrite Hc, (IH Hr). reflexivity.
Qed.

Lemma startswith_app (a b c : string) :
  startswith (a ++ b) (a ++ c) = startswith b c.
Proof.
  induction a as [|x a IH]; cbn; [reflexivity|].
  now rewrite Ascii.eqb_refl, IH.
Qed.

Lemma startswith_self_app (a b : string) : startswith a (a ++ b) = true.
Proof.
  induction a as [|x a IH]; cbn; [reflexivity|].
  now rewrite Ascii.eqb_refl, IH.
Qed.

Lemma str_app_assoc (a b c : string) :
  ((a ++ b) ++ c)%string = (a ++ (b ++ c))%string.
Proof. induction a; cbn; congruence. Qed.

Lemma join_snoc (sep : string) (comps : list string) (name : string) :
  PyStr.join sep (comps ++ [name])
  = match comps with
    | [] => name
    | _ => (PyStr.join sep comps ++ sep ++ name)%string
    end.
Proof.
  induction comps as [|c rest IH]; [reflexivity|].
  destruct rest as [|d rest]; [reflexivity|].
  change (PyStr.join sep ((c :: d :: rest) ++ [name]))
    with (c ++ sep ++ PyStr.join sep ((d :: rest) ++ [name]))%string.
  rewrite IH.
  change (PyStr.join sep (c :: d :: rest))
    with (c ++ sep ++ PyStr.join sep (d :: rest))%string.
  now rewrite !str_app_assoc.
Qed.

Lemma ascii_eqb_sym (a b : ascii) : Ascii.eqb a b = Ascii.eqb b a.
Proof.
  destruct (Ascii.eqb_spec a b) as [->|N]; [now rewrite Ascii.eqb_refl|].
  symmetry. apply Ascii.eqb_neq. congruence.
Qed.

(** [leading_slashes] only looks at the run of slashes in front. *)
Lemma leading_slashes_run (path : string) :
  leading_slashes path
  = match slash_run path with
    | 0%nat => 0%nat
    | 2%nat => 2%nat
    | _ => 1%nat
    end.
Proof.
  unfold leading_slashes.
  destruct path as [|c1 [|c2 [|c3 r]]]; cbn [startswith slash_run];
    rewrite ?(ascii_eqb_sym "/");
    repeat match goal with
           | |- context [Ascii.eqb ?c "/"] => destruct (Ascii.eqb c "/")
           end; reflexivity.
Qed.

Lemma slash_run_app (a b : string) :
  slash_run (a ++ b)
  = if (slash_run a =? String.length a)%nat
    then (String.length a + slash_run b)%nat
    else slash_run a.
Proof.
  induction a as [|c r IH]; cbn [append slash_run String.length];
    [reflexivity|].
  destruct (Ascii.eqb c "/"); [|reflexivity].
  rewrite IH. cbn [Nat.eqb].
  destruct (slash_run r =? String.length r)%nat; reflexivity.
Qed.

Lemma slash_run_full_ends (a : string) :
  slash_run a = String.length a -> a = "" \/ endswith "/" a = true.
Proof.
  induction a as [|c r IH]; [now left|]. cbn [slash_run String.length].
  destruct (Ascii.eqb_spec c "/") as [->|N]; [|discriminate].
  intros H. injection H as H. right.
  destruct (IH H) as [->|He]; [reflexivity|].
  apply endswith_iff in He as [p ->]. apply endswith_iff.
  now exists (String "/" p).
Qed.

Lemma slash_run_head (b : string) :
  b <> "" -> mem_char "/" b = false -> slash_run b = 0%nat.
Proof.
  destruct b as [|c r]; [contradiction|]. cbn [mem_char slash_run].
  intros _ H. apply orb_false_iff in H as [H _]. now rewrite H.
Qed.

End PlainNames.

Section PlainNamePaths.

Lemma normpath_absolute (path : string) :
  startswith "/" path = true ->
  normpath path
  = (repeat_slash (leading_slashes path)
     ++ PyStr.join "/"
          (fold_left (normpath_step (leading_slashes path)) (split "/" path) []))%string.
Proof.
  intros H. destruct path as [|c r]; [discriminate H|].
  unfold normpath, leading_slashes. rewrite H.
  change (String.eqb (String c r) "") with false. cbv iota.
  destruct (startswith "//" (String c r) && negb (startswith "///" (String c r)));
    reflexivity.
Qed.

Variable F name : string.
Hypothesis F_absolute : isabs F = true.
Hypothesis name_plain : mem_char "/" name = false.
Hypothesis name_not_empty : name <> "".
Hypothesis name_not_dot : name <> ".".
Hypothesis name_not_dotdot : name <> "..".

Lemma plain_name_not_absolute : startswith "/" name = false.
Proof.
  destruct name as [|c r]; [reflexivity|].
  cbn [mem_char] in name_plain. apply orb_false_iff in name_plain as [Hc _].
  cbn [startswith]. now rewrite ascii_eqb_sym, Hc.
Qed.

Lemma plain_name_join :
  exists F0,
    PosixPath.join F name = (F0 ++ String "/" name)%string
    /\ ((F = F0 /\ endswith "/" F = false) \/ F = (F0 ++ "/")%string).
Proof.
  unfold PosixPath.join. rewrite plain_name_not_absolute.
  assert (HF : String.eqb F "" = false).
  { destruct F; [discriminate F_absolute | reflexivity]. }
  rewrite HF. cbn [orb].
  destruct (endswith "/" F) eqn:E.
  - apply endswith_iff in E as [F0 E]. exists F0. split; [|now right].
    rewrite E. now rewrite str_app_assoc.
  - exists F. split; [reflexivity | now left].
Qed.

Lemma plain_name_step (k : nat) (comps : list string) :
  normpath_step k comps name = (comps ++ [name])%list.
Proof.
  unfold normpath_step.
  assert (E1 : String.eqb name "" = false) by now apply String.eqb_neq.
  assert (E2 : String.eqb name "." = false) by now apply String.eqb_neq.
  assert (E3 : String.eqb name ".." = false) by now apply String.eqb_neq.
  now rewrite E1, E2, E3.
Qed.

Lemma plain_name_components (k : nat) :
  fold_left (normpath_step k) (split "/" (PosixPath.join F name)) []
  = (fold_left (normpath_step k) (split "/" F) [] ++ [name])%list.
Proof.
  destruct plain_name_join as (F0 & -> & [[-> _] | ->]).
  - rewrite split_app_sep, (split_no_sep _ _ name_plain), fold_left_app.
    cbn [fold_left]. apply plain_name_step.
  - change (F0 ++ "/")%string with (F0 ++ String "/" "")%string.
    rewrite !split_app_sep, (split_no_sep _ _ name_plain), !fold_left_app.
    cbn [fold_left split]. rewrite plain_name_step. reflexivity.
Qed.

Lemma plain_name_leading_slashes :
  leading_slashes (PosixPath.join F name) = leading_slashes F.
Proof.
  rewrite !leading_slashes_run.
  assert (E : slash_run (PosixPath.join F name) = slash_run F); [|now rewrite E].
  pose proof (slash_run_head name name_not_empty name_plain) as Hn.
  destruct plain_name_join as (F0 & -> & [[<- He] | ->]).
  - rewrite slash_run_app.
    destruct (slash_run F =? String.length F)%nat eqn:Er; [|reflexivity].
    apply Nat.eqb_eq in Er. apply slash_run_full_ends in Er as [->|Er].
    + discriminate F_absolute.
    + congruence.
  - rewrite !slash_run_app. cbn [slash_run].
    rewrite Ascii.eqb_refl, Hn.
    destruct (slash_run F0 =? String.length F0)%nat; reflexivity.
Qed.

Lemma plain_name_join_absolute : isabs (PosixPath.join F name) = true.
Proof.
  unfold isabs in *. destruct plain_name_join as (F0 & -> & [[<- _] | E]).
  - destruct F as [|c r]; [discriminate F_absolute|].
    cbn [append startswith] in *. exact F_absolute.
  - rewrite E in F_absolute. destruct F0 as [|c r]; [reflexivity|].
    cbn [append startswith] in *. exact F_absolute.
Qed.

(** The absolute form of the folder is a prefix of the absolute form of
    the path of a plain name in it. *)
Lemma plain_name_passes_guard (cwd : string) :
  startswith (abspath cwd F) (abspath cwd (PosixPath.join F name)) = true.
Proof.
  unfold abspath. rewrite plain_name_join_absolute, F_absolute.
  rewrite (normpath_absolute F F_absolute).
  rewrite (normpath_absolute _ plain_name_join_absolute).
  rewrite plain_name_leading_slashes, plain_name_components.
  rewrite startswith_app, join_snoc.
  destruct (fold_left _ (split "/" F) []); [reflexivity|].
  apply startswith_self_app.
Qed.

End PlainNamePaths.

(** X11. The audio endpoint never refuses a plain file name: with an
    absolute beats folder, a name that holds no slash and is not empty,
    [.] or [..] passes the traversal guard; the answer is 404 when
    nothing is at the joined path, and when a file is there the answer
    is 200 and the body is the content of that file, written once. *)
Theorem audio_serves_plain_names
  (BEATS_FOLDER cwd : string) (fs : filesystem)
  (guess_type : string -> option string) (file_name : string) :
  isabs BEATS_FOLDER = true ->
  mem_char "/" file_name = false ->
  file_name <> "" -> file_name <> "." -> file_name <> ".." ->
  let r := handle_audio_stream BEATS_FOLDER cwd fs guess_type file_name in
  status r <> Some forbidden_signal
  /\ (fs (PosixPath.join BEATS_FOLDER file_name) = None -> r = [send_error 404])
  /\ (forall content,
        fs (PosixPath.join BEATS_FOLDER file_name) = Some (RegularFile content) ->
        status r = Some 200 /\ written r = [RawBody content]).
Proof.
  intros Habs Hplain H0 H1 H2 r. subst r. unfold handle_audio_stream.
  rewrite (plain_name_passes_guard BEATS_FOLDER file_name Habs Hplain H0 H1 H2).
  cbn [negb].
  destruct (fs (PosixPath.join BEATS_FOLDER file_name)) as [[content|size]|].
  - split; [intros H; discriminate H|]. split; [intros H; discriminate H|].
    intros c H. injection H as <-. now split.
  - split; [intros H; discriminate H|]. split; [intros H; discriminate H|].
    intros c H. discriminate H.
  - split; [intros H; discriminate H|]. split; [reflexivity|].
    intros c H. discriminate H.
Qed.

Lemma audio_serves_plain_names_witness :
  let fs := fun p => if String.eqb p "/srv/beats/Night Drive.wav"
                     then Some (RegularFile "RIFF....") else None in
  let r := handle_audio_stream "/srv/beats/" "/home" fs (fun _ => None)
             "Night Drive.wav" in
  status r = Some 200 /\ written r = [RawBody "RIFF...."].
Proof.
  intros fs r.
  apply (audio_serves_plain_names "/srv/beats/" "/home" fs (fun _ => None)
           "Night Drive.wav"); try reflexivity; intros H; discriminate H.
Defined.

(** ** Routing *)

Section Routing.

Lemma unquote_plain (s : string) :
  mem_char "%" s = false -> Urllib.unquote s = s.
Proof.
  induction s as [|c r IH]; [reflexivity|]. cbn [mem_char Urllib.unquote].
  intros H. apply orb_false_iff in H as [Hc Hr].
  rewrite Hc. now rewrite (IH Hr).
Qed.

Lemma replace_from_skip (old new a b : string) :
  replace_from old new (String.length a) (a ++ b) = replace_from old new 0 b.
Proof.
  induction a as [|c r IH]; [reflexivity|].
  cbn [String.length append replace_from]. exact IH.
Qed.

Lemma replace_audio_prefix_absent (s : string) :
  mem_char "/" s = false -> replace_from "/api/audio/" "" 0 s = s.
Proof.
  induction s as [|c r IH]; [reflexivity|]. cbn [mem_char].
  intros H. apply orb_false_iff in H as [Hc Hr].
  cbn [replace_from startswith]. rewrite ascii_eqb_sym, Hc. cbn [andb].
  now rewrite (IH Hr).
Qed.

Lemma replace_audio_prefix (name : string) :
  mem_char "/" name = false ->
  replace "/api/audio/" "" ("/api/audio/" ++ name) = name.
Proof.
  intros H. unfold replace.
  change ("/api/audio/" ++ name)%string
    with (String "/" ("api/audio/" ++ name)).
  cbn [replace_from].
  assert (E : startswith "/api/audio/" (String "/" ("api/audio/" ++ name)) = true)
    by apply (startswith_self_app "/api/audio/" name).
  rewrite E.
  change (String.length "/api/audio/" - 1)%nat with (String.length "api/audio/").
  rewrite replace_from_skip. cbn [append].
  now apply replace_audio_prefix_absent.
Qed.

End Routing.

(** X12. The locator of a listed beat leads back to its file: for a
    row whose file name holds no [/] and no [%], a GET of the [fileUrl]
    of its listing entry is answered by the audio handler for exactly
    that file name, and the store is not touched. *)
Theorem do_GET_file_url_reaches_file
  (env : environment) (row : Beat) (url : string) (db : database) :
  getitem (beat_dict row) "fileUrl" = inr (JString url) ->
  mem_char "/" (beat_file_name row) = false ->
  mem_char "%" (beat_file_name row) = false ->
  do_GET env url db
  = (db,
     handle_audio_stream (env_BEATS_FOLDER env) (env_cwd env) (env_fs env)
       (env_guess_type env) (beat_file_name row)).
Proof.
  intros Hurl Hs Hp.
  assert (E : url = ("/api/audio/" ++ beat_file_name row)%string)
    by (cbn in Hurl; injection Hurl as <-; reflexivity).
  subst url. unfold do_GET.
  assert (Hu : Urllib.unquote ("/api/audio/" ++ beat_file_name row)
               = ("/api/audio/" ++ beat_file_name row)%string).
  { apply unquote_plain. rewrite mem_char_app, Hp. reflexivity. }
  rewrite Hu, (replace_audio_prefix _ Hs), (unquote_plain _ Hp).
  reflexivity.
Qed.

Lemma do_GET_file_url_reaches_file_witness :
  let env := mkEnvironment 5 (steady 5) FolderMissing "/srv/beats" "/" "/app"
               (fun p => if String.eqb p "/srv/beats/a b.mp3"
                         then Some (RegularFile "ID3") else None)
               (fun _ => None) in
  let row := mkBeat 1 "a b" "a-b" None None None None "a b.mp3" "mp3" 5 in
  written (snd (do_GET env "/api/audio/a b.mp3" empty_database))
  = [RawBody "ID3"].
Proof.
  intros env row.
  rewrite (do_GET_file_url_reaches_file env row "/api/audio/a b.mp3"
             empty_database); reflexivity.
Defined.

(** X13. A GET of [/api/beats/] followed by an id text without [/] and
    [%] is answered by [handle_get_beat] on that text; the path
    [/api/beats] itself is answered by the listing. *)
Theorem do_GET_beat_routes
  (env : environment) (id_text : string) (db : database) :
  mem_char "/" id_text = false ->
  mem_char "%" id_text = false ->
  do_GET env ("/api/beats/" ++ id_text) db = handle_get_beat id_text db
  /\ do_GET env "/api/beats" db
     = handle_beats_list (env_clock env) (env_folder env) db.
Proof.
  intros Hs Hp. split; [|reflexivity].
  unfold do_GET.
  assert (Hu : Urllib.unquote ("/api/beats/" ++ id_text)
               = ("/api/beats/" ++ id_text)%string).
  { apply unquote_plain. rewrite mem_char_app, Hp. reflexivity. }
  rewrite Hu.
  change (String.eqb ("/api/beats/" ++ id_text) "/api/beats") with false.
  cbv iota. rewrite (startswith_self_app "/api/beats/" id_text).
  change ("/api/beats/" ++ id_text)%string
    with ("/api/beats" ++ String "/" id_text)%string.
  rewrite split_app_sep, (split_no_sep _ _ Hs), last_last. reflexivity.
Qed.

Lemma do_GET_beat_routes_witness :
  let env := mkEnvironment 5 (steady 5) FolderMissing "/srv/beats" "/" "/app"
               (fun _ => None) (fun _ => None) in
  let db := mkDatabase
              [mkBeat 12 "a" "a" None None None None "a.mp3" "mp3" 5] 12 [] 0 in
  status (snd (do_GET env "/api/beats/12" db)) = Some 200.
Proof.
  intros env db.
  destruct (do_GET_beat_routes env "12" db eq_refl eq_refl) as [H _].
  change (status (snd (do_GET env ("/api/beats/" ++ "12") db)) = Some 200).
  rewrite H. reflexivity.
Defined.

(** X14. Only two routes can write: a GET of any path other than
    [/api/beats] leaves the store unchanged, and a POST to any path
    other than [/api/inquiry] is answered 404 and leaves it unchanged. *)
Theorem only_listing_and_inquiry_write
  (env : environment) (path : string) (loaded : exn + json_value)
  (db : database) :
  (Urllib.unquote path <> "/api/beats" -> fst (do_GET env path db) = db)
  /\ (Urllib.unquote path <> "/api/inquiry" ->
      do_POST env path loaded db = (db, [send_error not_found_signal])).
Proof.
  split; intros H.
  - unfold do_GET. apply String.eqb_neq in H. rewrite H.
    destruct (startswith "/api/beats/" _).
    { apply handle_get_beat_keeps_store. }
    destruct (startswith "/api/audio/" _); [reflexivity|].
    destruct (_ || _); reflexivity.
  - unfold do_POST. apply String.eqb_neq in H. now rewrite H.
Qed.

Lemma only_listing_and_inquiry_write_witness :
  let env := mkEnvironment 5 (steady 5) (FolderListing ["a.mp3"]) "/srv/beats" "/" "/app"
               (fun _ => None) (fun _ => None) in
  fst (do_GET env "/api/beats/" empty_database) = empty_database
  /\ do_POST env "/api/inquiry/" (inr JNull) empty_database
     = (empty_database, [send_error not_found_signal]).
Proof.
  intros env.
  destruct (only_listing_and_inquiry_write env "/api/beats/" (inr JNull)
              empty_database) as [H1 _].
  destruct (only_listing_and_inquiry_write env "/api/inquiry/" (inr JNull)
              empty_database) as [_ H2].
  split; [apply H1 | apply H2]; intros H; discriminate H.
Defined.

(** ** More on names, slugs and file types *)

Section Splitext.

Lemma rfind_absent_iff (c : ascii) (s : string) :
  rfind c s < 0 <-> mem_char c s = false.
Proof.
  split; [|intros H; rewrite (rfind_absent _ _ H); lia].
  induction s as [|a r IH]; cbn [rfind mem_char]; [reflexivity|].
  destruct (0 <=? rfind c r) eqn:E.
  - apply Z.leb_le in E. intros H. lia.
  - apply Z.leb_gt in E. rewrite (IH E).
    destruct (Ascii.eqb a c); [intros H; lia | reflexivity].
Qed.

Lemma rfind_split (c : ascii) (s : string) :
  0 <= rfind c s ->
  exists a b,
    s = (a ++ String c b)%string /\ mem_char c b = false
    /\ rfind c s = Z.of_nat (String.length a).
Proof.
  induction s as [|x r IH]; cbn [rfind]; [lia|].
  destruct (0 <=? rfind c r) eqn:E.
  - apply Z.leb_le in E. intros _.
    destruct (IH E) as (a & b & -> & Hb & Hk).
    exists (String x a), b. repeat split; auto.
    rewrite Hk. cbn [String.length]. lia.
  - apply Z.leb_gt in E. apply rfind_absent_iff in E.
    destruct (Ascii.eqb_spec x c) as [->|N]; [|lia].
    intros _. exists "", r. repeat split; auto.
Qed.

Lemma rfind_app_right (c : ascii) (a t : string) :
  mem_char c t = true -> Z.of_nat (String.length a) <= rfind c (a ++ t).
Proof.
  intros Ht. induction a as [|x r IH]; cbn [append String.length].
  - destruct (Z.lt_ge_cases (rfind c t) 0) as [H|H]; [|cbn; lia].
    apply rfind_absent_iff in H. congruence.
  - cbn [rfind]. destruct (0 <=? rfind c (r ++ t)) eqn:E; [lia|].
    apply Z.leb_gt in E. lia.
Qed.

End Splitext.

(** X15. [splitext] cuts a path in two without losing a character: root
    and extension put together give the path back; and the extension is
    either empty or a dot followed by characters that are neither dots
    nor slashes. *)
Theorem splitext_rejoins (p : string) :
  (fst (splitext p) ++ snd (splitext p))%string = p
  /\ (snd (splitext p) = ""
      \/ exists e,
           snd (splitext p) = String "." e
           /\ mem_char "." e = false /\ mem_char "/" e = false).
Proof.
  unfold splitext.
  destruct (rfind "/" p <? rfind "." p) eqn:E; cbn [fst snd].
  2:{ split; [|now left]. clear E. induction p; cbn; congruence. }
  destruct (only_dots _); cbn [fst snd].
  { split; [|now left]. clear E. induction p; cbn; congruence. }
  split; [apply take_drop|]. right.
  apply Z.ltb_lt in E. pose proof (rfind_ge "/" p) as Hge.
  destruct (rfind_split "." p) as (a & b & Hp & Hb & Hk); [lia|].
  assert (Hdrop : drop (String.length a) p = String "." b)
    by (rewrite Hp; apply drop_app).
  rewrite Hk, Nat2Z.id, Hdrop.
  exists b. repeat split; auto.
  destruct (mem_char "/" b) eqn:Hs; [|reflexivity]. exfalso.
  assert (Hm : mem_char "/" (String "." b) = true) by (cbn; exact Hs).
  pose proof (rfind_app_right "/" a (String "." b) Hm) as Hr.
  rewrite <- Hp in Hr. lia.
Qed.


Section Slugs.

Lemma slug_char_safe (c : ascii) :
  Ascii.eqb (slug_char c) " " = false
  /\ Ascii.eqb (slug_char c) "_" = false
  /\ lower_char (slug_char c) = slug_char c.
Proof.
  destruct c as [[] [] [] [] [] [] [] []]; repeat split.
Qed.

End Slugs.

(** X16. A slug made by sync from an ASCII file name is normalised: it
    holds no space, no underscore and no upper-case letter, and it is
    as long as the title it comes from. *)
Theorem slug_of_is_normalised (file_name : string) :
  is_ascii file_name = true ->
  mem_char " " (slug_of file_name) = false
  /\ mem_char "_" (slug_of file_name) = false
  /\ lower (slug_of file_name) = slug_of file_name
  /\ String.length (slug_of file_name) = String.length (title_of file_name).
Proof.
  intros _. unfold slug_of. rewrite slug_positional.
  split; [|split; [|split]]; try apply length_map_chars;
    unfold lower; induction (title_of file_name) as [|c r IH];
    cbn [map_chars mem_char]; try reflexivity;
    destruct (slug_char_safe c) as (H1 & H2 & H3).
  - now rewrite H1, IH.
  - now rewrite H2, IH.
  - now rewrite H3, IH.
Qed.

Lemma slug_of_is_normalised_witness :
  slug_of "My_Beat 01 (Final).MP3" = "my-beat-01-(final)"
  /\ mem_char " " (slug_of "My_Beat 01 (Final).MP3") = false.
Proof.
  split; [reflexivity|].
  apply (slug_of_is_normalised "My_Beat 01 (Final).MP3"). reflexivity.
Defined.

(** X17. The file type of a row sync adds is one of [mp3], [wav],
    [m4a], [flac], [ogg], or empty: for every added row whose file name
    holds no [/], nothing else is stored as file type. *)
Theorem sync_file_type_is_audio_type
  (c : clock) (folder : folder_state) (db : database) (row : Beat) :
  In row (beats (fst (sync_beats_from_folder c folder db))) ->
  ~ In row (beats db) ->
  mem_char "/" (beat_file_name row) = false ->
  beat_file_type row = "" \/ In (beat_file_type row) audio_types.
Proof.
  intros Hin Hnew Hsep.
  destruct (sync_new_row c folder db row Hin Hnew)
    as (rowid & i & f & entries & _ & -> & _ & Ha & _).
  cbn [derived_row beat_file_name beat_file_type] in *.
  apply is_audio_file_iff in Ha as (stem & ext & -> & Hext).
  rewrite mem_char_app in Hsep. apply orb_false_iff in Hsep as [Hs1 Hs2].
  change (("." ++ ext)%string) with (String "." ext) in Hs2.
  cbn [mem_char] in Hs2. apply orb_false_iff in Hs2 as [_ Hs2].
  assert (Hd : mem_char "." ext = false).
  { rewrite <- mem_dot_lower. unfold audio_types in Hext. cbn [In] in Hext.
    repeat (destruct Hext as [<-|Hext]; [reflexivity|]). contradiction. }
  unfold file_type_of.
  destruct (only_dots stem) eqn:Hdots.
  - left. now rewrite (splitext_dot_name stem ext Hs1 Hs2 Hd Hdots).
  - right. rewrite (splitext_stem_ext stem ext Hs1 Hs2 Hd Hdots). exact Hext.
Qed.

Lemma sync_file_type_is_audio_type_witness :
  In (beat_file_type
        (mkBeat 1 "Loop.v2" "loop.v2" None None None None "Loop.v2.FLAC" "flac" 4))
     audio_types.
Proof.
  destruct (sync_file_type_is_audio_type (steady 4) (FolderListing ["Loop.v2.FLAC"])
              empty_database
              (mkBeat 1 "Loop.v2" "loop.v2" None None None None "Loop.v2.FLAC"
                 "flac" 4)) as [H|H].
  - vm_compute. now left.
  - intros [].
  - reflexivity.
  - discriminate H.
  - exact H.
Defined.

(** ** Listing and lookup after sync *)

Section Lookup.

Lemma find_unique_id (rows : list Beat) (b : Beat) :
  NoDup (map beat_id rows) -> In b rows ->
  find (fun x => beat_id x =? beat_id b) rows = Some b.
Proof.
  induction rows as [|x rest IH]; intros Hnd Hin; [destruct Hin|].
  cbn [map] in Hnd. apply NoDup_cons_iff in Hnd as [Hx Hrest].
  cbn [find]. destruct Hin as [->|Hin].
  - now rewrite Z.eqb_refl.
  - destruct (Z.eqb_spec (beat_id x) (beat_id b)) as [E|_]; [|now apply IH].
    exfalso. apply Hx. rewrite E. now apply in_map.
Qed.

Lemma sync_loop_ids_grow (files : list string) :
  forall c conn conn' r,
    sync_loop c files conn = (conn', r) ->
    exists added,
      beats (pending conn') = (beats (pending conn) ++ added)%list
      /\ Forall (fun row =>
                   forall b, In b (beats (pending conn)) ->
                             beat_id b < beat_id row) added.
Proof.
  induction files as [|f rest IH]; intros c conn conn' r H.
  - cbn in H. injection H as <- _. exists []. now rewrite app_nil_r.
  - rewrite sync_loop_cons in H.
    destruct (cataloged f (pending conn)); [now apply (IH _ _ _ _ H)|].
    destruct (slug_taken _ _).
    { injection H as <- _. exists []. now rewrite app_nil_r. }
    apply IH in H as (added & Hb & Hall).
    exists (derived_row (next_beat_id (pending conn)) (c 0%nat) f :: added).
    split.
    + rewrite Hb. cbn. now rewrite <- app_assoc.
    + constructor.
      * intros b Hin. cbn [derived_row beat_id].
        unfold next_beat_id, next_rowid.
        pose proof (fold_max_ge (map beat_id (beats (pending conn)))
                      (beat_id b) (in_map _ _ _ Hin)). lia.
      * eapply Forall_impl; [|exact Hall]. cbv beta.
        intros row Hrow b Hin. apply Hrow. cbn. apply in_or_app. now left.
Qed.

End Lookup.

(** X18. After a pass that commits, the listing shows every audio file
    of the folder: [handle_beats_list] answers 200 with one object per
    stored row, and for each audio entry of the folder one of them
    carries its file name and the locator [/api/audio/] plus that
    name. *)
Theorem beats_list_shows_folder
  (c : clock) (entries : list string) (db : database) (n : nat) (f : string) :
  snd (sync_beats_from_folder c (FolderListing entries) db) = Synced n ->
  In f entries -> is_audio_file f = true ->
  exists rows row,
    snd (handle_beats_list c (FolderListing entries) db)
    = json_ok (JArray (map beat_dict rows))
    /\ Permutation rows
         (beats (fst (sync_beats_from_folder c (FolderListing entries) db)))
    /\ In row rows
    /\ beat_file_name row = f
    /\ getitem (beat_dict row) "fileUrl" = inr (JString ("/api/audio/" ++ f)).
Proof.
  intros Hs Hf Ha.
  unfold handle_beats_list, get_all_beats.
  destruct (sync_cases c (FolderListing entries) db)
    as [[E _] | [[e E] | (entries' & conn' & Ef & Hloop & E)]].
  - discriminate E.
  - rewrite E in Hs. discriminate Hs.
  - injection Ef as <-. rewrite E. cbn [fst].
    destruct (sync_loop_counts _ _ _ _ Hloop f) as [Hin _].
    assert (Hff : In f (filter is_audio_file entries))
      by (apply filter_In; now split).
    specialize (Hin Hff).
    assert (Hc : cataloged f (pending conn') = true).
    { rewrite cataloged_rows_named, Hin.
      destruct (List.length (rows_named f (pending (connect db))));
        reflexivity. }
    unfold cataloged in Hc. apply existsb_exists in Hc as [row [Hrow Hname]].
    apply String.eqb_eq in Hname.
    exists (order_by_created_at_desc (beats (pending conn'))), row.
    split; [reflexivity|].
    split; [apply order_by_created_at_desc_perm|].
    split.
    { apply (Permutation_in _
               (Permutation_sym (order_by_created_at_desc_perm _)) Hrow). }
    split; [exact Hname|]. now rewrite <- Hname.
Qed.

Lemma beats_list_shows_folder_witness :
  exists rows row,
    snd (handle_beats_list (steady 6) (FolderListing ["x.txt"; "Beat One.ogg"])
           empty_database)
    = json_ok (JArray (map beat_dict rows))
    /\ In row rows
    /\ beat_file_name row = "Beat One.ogg".
Proof.
  destruct (beats_list_shows_folder (steady 6) ["x.txt"; "Beat One.ogg"] empty_database
              1%nat "Beat One.ogg")
    as (rows & row & H1 & _ & H2 & H3 & _);
    try (vm_compute; reflexivity).
  - right; now left.
  - exists rows, row. auto.
Defined.

(** X19. In a consistent store every row is found by its id:
    [get_beat_by_id] on the id of a stored row returns that very row and
    changes nothing. *)
Theorem get_beat_by_id_finds_row (db : database) (b : Beat) :
  consistent db -> In b (beats db) -> fits_int64 (beat_id b) = true ->
  get_beat_by_id (beat_id b) db = (db, inr (Some b)).
Proof.
  intros (Hid & _) Hin Hfit.
  unfold get_beat_by_id, with_connection, select_beat_by_id.
  cbn [connect pending]. rewrite Hfit. cbn.
  now rewrite (find_unique_id _ _ Hid Hin).
Qed.

Lemma get_beat_by_id_finds_row_witness :
  let b := mkBeat 2 "b" "b" None None None None "b.mp3" "mp3" 6 in
  let db := mkDatabase
              [mkBeat 1 "a" "a" None None None None "a.mp3" "mp3" 5; b] 2 [] 0 in
  get_beat_by_id 2 db = (db, inr (Some b)).
Proof.
  intros b db.
  apply (get_beat_by_id_finds_row db b).
  - repeat split; cbn; repeat constructor; cbn; intuition discriminate.
  - right; now left.
  - reflexivity.
Defined.

(** X20. Sync hands out fresh, growing ids: every row it adds has an id
    larger than the id of every row the store held before the call. *)
Theorem sync_ids_grow
  (c : clock) (folder : folder_state) (db : database) (row old : Beat) :
  In row (beats (fst (sync_beats_from_folder c folder db))) ->
  ~ In row (beats db) ->
  In old (beats db) ->
  beat_id old < beat_id row.
Proof.
  intros Hin Hnew Hold.
  destruct (sync_cases c folder db)
    as [[_ E] | [[e E] | (entries & conn' & _ & Hloop & E)]];
    rewrite E in Hin; cbn [fst] in Hin; try contradiction.
  apply sync_loop_ids_grow in Hloop as (added & Hb & Hall).
  cbn [connect pending] in *. rewrite Hb in Hin.
  apply in_app_or in Hin as [Hin|Hin]; [contradiction|].
  rewrite Forall_forall in Hall. now apply (Hall row Hin).
Qed.

Lemma sync_ids_grow_witness :
  beat_id (mkBeat 41 "a" "a" None None None None "a.mp3" "mp3" 5)
  < beat_id (mkBeat 42 "b" "b" None None None None "b.wav" "wav" 9).
Proof.
  apply (sync_ids_grow (steady 9) (FolderListing ["a.mp3"; "b.wav"])
           (mkDatabase [mkBeat 41 "a" "a" None None None None "a.mp3" "mp3" 5]
              41 [] 0)).
  - vm_compute. right; now left.
  - intros [H|[]]. discriminate H.
  - now left.
Defined.
